(** * zip-viewer: the WhatsApp export viewer of [src/app/page.tsx]

    A shallow embedding of the transcript parser, the attachment
    classifier, the thumbnail sizing, the IndexedDB persistence calls, the
    search engine with its cursor, and the archive loader, followed by the
    properties of the specification, each proved or refuted on the
    embedding.

    JavaScript strings are sequences of UTF-16 code units.  They are
    modelled as [list ascii]: the code units 0..255 (Latin-1), on which
    [toLowerCase], [trim], the classes [\s] and [.] of the regular
    expressions and the case folding of the [/i] flag are written out as
    ECMAScript defines them. *)

From Stdlib Require Import ZArith QArith Qround Lqa Ascii String Sorted DecimalString.
From stdpp Require Import gmap strings list fin_maps sorting.

Local Open Scope Z_scope.
Local Open Scope nat_scope.

(** ** JavaScript strings *)

Module JS.

Definition jsstring : Type := list ascii.

(** A string literal of the source. *)
Definition str (s : string) : jsstring := list_ascii_of_string s.

Definition code (c : ascii) : nat := nat_of_ascii c.

(** ECMAScript WhiteSpace and LineTerminator below U+0100: TAB, LF, VT, FF,
    CR, SP, NBSP.  This is the class [\s] and what [trim] removes. *)
Definition isWhiteSpace (c : ascii) : bool :=
  let n := code c in
  ((9 <=? n) && (n <=? 13)) || (n =? 32) || (n =? 160).

(** LineTerminator below U+0100: LF and CR. The class [.] is its complement. *)
Definition isLineTerminator (c : ascii) : bool :=
  let n := code c in (n =? 10) || (n =? 13).

Definition isDot (c : ascii) : bool := negb (isLineTerminator c).

(** [toLowerCase] on one code unit: A-Z and the Latin-1 capitals
    U+00C0..U+00DE except the multiplication sign U+00D7. *)
Definition lowerChar (c : ascii) : ascii :=
  let n := code c in
  if ((65 <=? n) && (n <=? 90)) ||
     ((192 <=? n) && (n <=? 222) && negb (n =? 215))
  then ascii_of_nat (n + 32) else c.

Definition toLowerCase (s : jsstring) : jsstring := map lowerChar s.

(** [s.trim()] *)
Fixpoint trimStart (s : jsstring) : jsstring :=
  match s with
  | c :: s' => if isWhiteSpace c then trimStart s' else s
  | [] => []
  end.

Definition trimEnd (s : jsstring) : jsstring := rev (trimStart (rev s)).

Definition trim (s : jsstring) : jsstring := trimEnd (trimStart s).

(** [s.startsWith(p)] *)
Fixpoint startsWith (s p : jsstring) : bool :=
  match p, s with
  | [], _ => true
  | a :: p', b :: s' => if Ascii.eqb a b then startsWith s' p' else false
  | _ :: _, [] => false
  end.

(** [s.indexOf(p)], [None] for -1. *)
Fixpoint indexOf (s p : jsstring) : option nat :=
  if startsWith s p then Some 0
  else match s with
       | [] => None
       | _ :: s' => S <$> indexOf s' p
       end.

(** [s.includes(p)] *)
Definition includes (s p : jsstring) : bool :=
  match indexOf s p with Some _ => true | None => false end.

(** [s.replace(p, '')] with a string pattern [p]: the first occurrence of
    [p] is removed, and [s] is returned as it is when [p] does not occur. *)
Definition removeFirst (s p : jsstring) : jsstring :=
  match indexOf s p with
  | Some i => take i s ++ drop (i + length p) s
  | None => s
  end.

(** [s.substring(a, b)]: both ends are clamped to the length and swapped
    when [a > b]. *)
Definition substring (s : jsstring) (a b : nat) : jsstring :=
  let a' := a `min` length s in
  let b' := b `min` length s in
  let lo := a' `min` b' in
  let hi := a' `max` b' in
  take (hi - lo) (drop lo s).

(** [s.substring(a)] *)
Definition substringFrom (s : jsstring) (a : nat) : jsstring :=
  substring s a (length s).

(** [s.split(sep)] with a one-character separator: never empty. *)
Fixpoint split (sep : ascii) (s : jsstring) : list jsstring :=
  match s with
  | [] => [[]]
  | c :: s' =>
      if Ascii.eqb c sep then [] :: split sep s'
      else match split sep s' with
           | seg :: segs => (c :: seg) :: segs
           | [] => [[c]]
           end
  end.

(** [a.pop()] as the value it returns: the last element, [None] for
    [undefined] on an empty array. *)
Definition pop {A} (a : list A) : option A := last a.

(** Truthiness of a string: the empty string is falsy. *)
Definition truthy (s : jsstring) : bool :=
  match s with [] => false | _ :: _ => true end.

(** [x % y] on integers: the sign of the result is that of the dividend. *)
Definition jsrem (x y : Z) : Z := Z.rem x y.

End JS.
Import JS.

(** ** A backtracking matcher for the regular expressions of the source

    The three patterns of the source are sequences of literal characters
    and of quantified one-character classes, with one alternation at top
    level.  The matcher follows the ECMAScript backtracking order: a greedy
    quantifier tries one more repetition before the continuation, a lazy
    one tries the continuation first. *)

Module Regex.

Inductive quant := Greedy | Lazy.

Inductive item :=
| Lit (c : ascii)
| Rep (q : quant) (min : nat) (cls : ascii -> bool) (capture : bool).

(** One alternative is a sequence of items; a pattern is a list of
    alternatives tried in order. *)
Definition alt := list item.
Record regex := { alts : list alt; ignoreCase : bool }.

(** Character comparison; with [/i] both sides are case-folded.  No code
    unit of 0..255 outside A-Z/a-z folds to an ASCII letter, and every
    literal letter of the source patterns is ASCII. *)
Definition charMatches (ic : bool) (pat c : ascii) : bool :=
  if ic then Ascii.eqb (lowerChar pat) (lowerChar c) else Ascii.eqb pat c.

Section Rep.
Context {R : Type} (cls : ascii -> bool) (k : jsstring -> option R).

(** [rep q min s]: repeat [cls] at least [min] times from the head of [s],
    then the continuation [k]; returns what was consumed and the result
    of [k]. *)
Fixpoint rep (q : quant) (min : nat) (s : jsstring) {struct s}
  : option (jsstring * R) :=
  match q with
  | Lazy =>
      match (match min with O => pair [] <$> k s | S _ => None end) with
      | Some r => Some r
      | None =>
          match s with
          | c :: s' =>
              if cls c
              then (fun '(w, r) => (c :: w, r)) <$> rep q (pred min) s'
              else None
          | [] => None
          end
      end
  | Greedy =>
      match (match s with
             | c :: s' =>
                 if cls c
                 then (fun '(w, r) => (c :: w, r)) <$> rep q (pred min) s'
                 else None
             | [] => None
             end) with
      | Some r => Some r
      | None => match min with O => pair [] <$> k s | S _ => None end
      end
  end.

End Rep.

(** Match a sequence at the head of the input: the captured groups in
    order and the input left after the match. *)
Fixpoint matchItems (ic : bool) (items : alt)
  : jsstring -> option (list jsstring * jsstring) :=
  match items with
  | [] => fun s => Some ([], s)
  | Lit c :: items' =>
      fun s =>
        match s with
        | x :: s' => if charMatches ic c x then matchItems ic items' s' else None
        | [] => None
        end
  | Rep q min cls cap :: items' =>
      fun s =>
        match rep cls (matchItems ic items') q min s with
        | Some (w, (caps, rest)) => Some (if cap then w :: caps else caps, rest)
        | None => None
        end
  end.

Fixpoint matchAlts (ic : bool) (l : list alt) (s : jsstring)
  : option (list jsstring * jsstring) :=
  match l with
  | [] => None
  | a :: l' =>
      match matchItems ic a s with
      | Some r => Some r
      | None => matchAlts ic l' s
      end
  end.

(** A match object: [m.index], the whole match [m[0]], the groups
    [m[1]], [m[2]], ... ([None] for [undefined]) and the index after it. *)
Record rmatch := {
  m_index : nat;
  m_whole : jsstring;
  m_groups : list jsstring;
  m_end : nat
}.

Definition group (n : nat) (m : rmatch) : option jsstring :=
  m_groups m !! (n - 1).

Definition groupStr (n : nat) (m : rmatch) : jsstring :=
  default [] (group n m).

(** Leftmost match in [s], which is the input from index [idx] on. *)
Fixpoint searchFrom (re : regex) (s : jsstring) (idx : nat) : option rmatch :=
  match matchAlts (ignoreCase re) (alts re) s with
  | Some (caps, rest) =>
      let n := length s - length rest in
      Some {| m_index := idx; m_whole := take n s;
              m_groups := caps; m_end := idx + n |}
  | None =>
      match s with
      | [] => None
      | _ :: s' => searchFrom re s' (S idx)
      end
  end.

(** [re.exec(text)] of a [/g] pattern whose [lastIndex] is [lastIndex]. *)
Definition exec (re : regex) (text : jsstring) (lastIndex : nat)
  : option rmatch :=
  if length text <? lastIndex then None
  else searchFrom re (drop lastIndex text) lastIndex.

(** [text.match(re)] of a pattern without [/g]. *)
Definition matchFirst (re : regex) (text : jsstring) : option rmatch :=
  searchFrom re text 0.

Definition lits (s : string) : alt := map Lit (str s).

End Regex.
Import Regex.

(** ** Data model *)

Inductive AttachmentType := image | video | document | sticker | audio.

(** Object URLs made by [URL.createObjectURL] are opaque handles. *)
Definition handle : Type := nat.

Record Attachment := {
  name : jsstring;
  type : AttachmentType;
  blobUrl : handle;
  size : Z;
  thumbnailUrl : option handle
}.

Record Message := {
  date : jsstring;
  time : jsstring;
  sender : jsstring;
  text : jsstring;
  attachment : option Attachment
}.

Global Instance AttachmentType_eq_dec : EqDecision AttachmentType.
Proof. solve_decision. Defined.
Global Instance Attachment_eq_dec : EqDecision Attachment.
Proof. solve_decision. Defined.
Global Instance Message_eq_dec : EqDecision Message.
Proof. solve_decision. Defined.

(** ** getAttachmentType *)

Definition imageExts : list jsstring :=
  [str "jpg"; str "jpeg"; str "png"; str "gif"; str "webp"].
Definition videoExts : list jsstring :=
  [str "mp4"; str "avi"; str "mov"; str "webm"; str "mkv"].
Definition audioExts : list jsstring :=
  [str "mp3"; str "wav"; str "ogg"; str "m4a"].

(** [a.includes(x)] on an array of strings *)
Definition arrayIncludes (a : list jsstring) (x : jsstring) : bool :=
  bool_decide (x ∈ a).

(** [filename.split('.').pop()?.toLowerCase() || ''] *)
Definition extOf (filename : jsstring) : jsstring :=
  match toLowerCase <$> pop (split "."%char filename) with
  | Some e => if truthy e then e else []
  | None => []
  end.

Definition getAttachmentType (filename : jsstring) : AttachmentType :=
  let ext := extOf filename in
  if arrayIncludes imageExts ext then image
  else if arrayIncludes videoExts ext then video
  else if arrayIncludes audioExts ext then audio
  else if includes (toLowerCase filename) (str "sticker") then sticker
  else document.

(** ** parseMessages *)

(** [/\[(.*?),\s*(.*?)\]\s*(.*?):\s*/g] *)
Definition messageRegex : regex :=
  {| alts := [[Lit "["; Rep Lazy 0 isDot true; Lit ",";
               Rep Greedy 0 isWhiteSpace false;
               Rep Lazy 0 isDot true; Lit "]";
               Rep Greedy 0 isWhiteSpace false;
               Rep Lazy 0 isDot true; Lit ":";
               Rep Greedy 0 isWhiteSpace false]];
     ignoreCase := false |}.

(** [/<attached: (.+?)>|<Media omitted>/i] *)
Definition attachmentRegex : regex :=
  {| alts := [lits "<attached: " ++ [Rep Lazy 1 isDot true; Lit ">"];
              lits "<Media omitted>"];
     ignoreCase := true |}.

Definition setText (m : Message) (t : jsstring) : Message :=
  {| date := date m; time := time m; sender := sender m;
     text := t; attachment := attachment m |}.

Definition setAttachment (m : Message) (a : Attachment) : Message :=
  {| date := date m; time := time m; sender := sender m;
     text := text m; attachment := Some a |}.

(** The block that the source has twice, once in the loop for [prevMsg]
    and once after it for [lastMsg]: look for an attachment marker in the
    trimmed body [msgText] and fill in the message. *)
Definition assignBody (attachmentMap : gmap jsstring Attachment)
    (msg : Message) (msgText : jsstring) : Message :=
  match matchFirst attachmentRegex msgText with
  | Some attachmentMatch =>
      match group 1 attachmentMatch with
      | Some fileName =>
          match (if truthy fileName then attachmentMap !! fileName else None) with
          | Some a =>
              setText (setAttachment msg a)
                      (trim (removeFirst msgText (m_whole attachmentMatch)))
          | None => setText msg msgText
          end
      | None => setText msg msgText
      end
  | None => setText msg msgText
  end.

(** [parsed[parsed.length - 1]] updated in place. *)
Definition updateLast (parsed : list Message) (f : Message -> Message)
  : list Message :=
  match parsed !! (length parsed - 1) with
  | Some prevMsg => <[length parsed - 1 := f prevMsg]> parsed
  | None => parsed
  end.

Definition newMessage (m : rmatch) : Message :=
  {| date := groupStr 1 m; time := groupStr 2 m; sender := groupStr 3 m;
     text := []; attachment := None |}.

(** The [while ((match = messageRegex.exec(text)) !== null)] loop, as a
    function of the array [parsed] and of [lastIndex]; [None] when the
    fuel runs out before [exec] returns [null]. *)
Fixpoint parseLoop (fuel : nat) (text : jsstring)
    (attachmentMap : gmap jsstring Attachment)
    (parsed : list Message) (lastIndex : nat)
  : option (list Message * nat) :=
  match fuel with
  | O => None
  | S fuel' =>
      match exec messageRegex text lastIndex with
      | None => Some (parsed, lastIndex)
      | Some m =>
          let parsed1 :=
            if 0 <? length parsed
            then updateLast parsed (fun prevMsg =>
                   assignBody attachmentMap prevMsg
                     (trim (substring text lastIndex (m_index m))))
            else parsed in
          parseLoop fuel' text attachmentMap (parsed1 ++ [newMessage m]) (m_end m)
      end
  end.

(** The block after the loop: the body of the last message runs to the
    end of the text. *)
Definition assignLast (text : jsstring)
    (attachmentMap : gmap jsstring Attachment)
    (parsed : list Message) (lastIndex : nat) : list Message :=
  if 0 <? length parsed
  then updateLast parsed (fun lastMsg =>
         assignBody attachmentMap lastMsg
           (trim (substringFrom text lastIndex)))
  else parsed.

Definition parseMessagesFuel (fuel : nat) (text : jsstring)
    (attachmentMap : gmap jsstring Attachment) : option (list Message) :=
  match parseLoop fuel text attachmentMap [] 0 with
  | Some (parsed, lastIndex) =>
      Some (assignLast text attachmentMap parsed lastIndex)
  | None => None
  end.

(** Every match is at least four characters long, so the loop runs at most
    [length text] times and one more call of [exec] ends it. *)
Definition parseMessages (text : jsstring)
    (attachmentMap : gmap jsstring Attachment) : option (list Message) :=
  parseMessagesFuel (S (length text)) text attachmentMap.

(** ** Auxiliary notions for the matcher *)

(** The number of literal characters of a sequence. *)
Fixpoint litCount (items : alt) : nat :=
  match items with
  | [] => 0
  | Lit _ :: items' => S (litCount items')
  | Rep _ _ _ _ :: items' => litCount items'
  end.

(** A match object moved [k] positions to the right. *)
Definition shift (k : nat) (m : rmatch) : rmatch :=
  {| m_index := k + m_index m; m_whole := m_whole m;
     m_groups := m_groups m; m_end := k + m_end m |}.

(** ** The headers of a transcript

    The header occurrences of a transcript, as the successive matches of
    the header pattern scanning from left to right: each scan resumes where
    the previous match ended. *)
Inductive headerScan (text : jsstring) : nat -> list rmatch -> Prop :=
| scan_end i :
    exec messageRegex text i = None ->
    headerScan text i []
| scan_hit i m ms :
    exec messageRegex text i = Some m ->
    headerScan text (m_end m) ms ->
    headerScan text i (m :: ms).

(** The index where the body of a header ends: the start of the next
    header, or the end of the text. *)
Definition bodyEnd (text : jsstring) (next : list rmatch) : nat :=
  match next with
  | m' :: _ => m_index m'
  | [] => length text
  end.

(** The trimmed body of the header [m] followed by the headers [next]. *)
Definition bodyOf (text : jsstring) (m : rmatch) (next : list rmatch)
  : jsstring :=
  trim (substring text (m_end m) (bodyEnd text next)).

(** One message per header, with the body between its header and the next. *)
Fixpoint messagesOf (text : jsstring)
    (attachmentMap : gmap jsstring Attachment) (ms : list rmatch)
  : list Message :=
  match ms with
  | [] => []
  | m :: ms' =>
      assignBody attachmentMap (newMessage m) (bodyOf text m ms')
      :: messagesOf text attachmentMap ms'
  end.

(** ** Substrings, as the specification speaks of them *)

Definition isSubstring (p s : jsstring) : Prop :=
  exists pre post, s = pre ++ p ++ post.

(** [p] occurs in [s] when letter case is ignored. *)
Definition ciSubstring (p s : jsstring) : Prop :=
  isSubstring (toLowerCase p) (toLowerCase s).

(** Empty or made of white space only. *)
Definition whitespaceOnly (s : jsstring) : Prop :=
  Forall (fun c => isWhiteSpace c = true) s.

(** ** Thumbnail sizing

    The numbers of [generateThumbnail] are modelled as exact rationals:
    [img.width] and [img.height] are integers, and each new dimension is
    one product of integers divided by an integer. *)

Definition thumbnailSize (imgWidth imgHeight maxWidth maxHeight : Q) : Q * Q :=
  let width := imgWidth in
  let height := imgHeight in
  if Qlt_le_dec height width then            (* width > height *)
    if Qlt_le_dec maxWidth width then        (* width > maxWidth *)
      ((maxWidth, (height * maxWidth) / width)%Q)
    else (width, height)
  else
    if Qlt_le_dec maxHeight height then      (* height > maxHeight *)
      (((width * maxHeight) / height)%Q, maxHeight)
    else (width, height).

(** [canvas.width = width; canvas.height = height]: the attributes are
    integers, the fraction is dropped. *)
Definition canvasSize (size : Q * Q) : Z * Z :=
  (Qfloor (fst size), Qfloor (snd size)).

(** The defaults [maxWidth = 200], [maxHeight = 200]. *)
Definition defaultThumbnailSize (imgWidth imgHeight : Z) : Q * Q :=
  thumbnailSize (inject_Z imgWidth) (inject_Z imgHeight)
                (inject_Z 200) (inject_Z 200).

(** ** The browser: blobs and object URLs *)

(** A blob read from a zip entry is known by its size and by what the
    browser makes of it when it is loaded as an image or as a video; a
    blob made by [canvas.toBlob] by the size of the canvas. *)
Inductive Blob :=
| EntryBlob (blobSize : Z) (decodedImage : option (Z * Z)) (decodedVideo : bool)
| CanvasBlob (width height : Z).

Definition sizeOfBlob (b : Blob) : Z :=
  match b with EntryBlob n _ _ => n | CanvasBlob _ _ => 0%Z end.

Definition imageOfBlob (b : Blob) : option (Z * Z) :=
  match b with
  | EntryBlob _ img _ => img
  | CanvasBlob w h => Some (w, h)
  end.

Definition videoOfBlob (b : Blob) : bool :=
  match b with EntryBlob _ _ v => v | CanvasBlob _ _ => false end.

(** The object URLs that are alive, with the blob each stands for, and the
    next fresh handle. *)
Record Browser := {
  objectUrls : gmap handle Blob;
  nextUrl : handle
}.

Definition createObjectURL (b : Blob) (br : Browser) : handle * Browser :=
  (nextUrl br,
   {| objectUrls := <[nextUrl br := b]> (objectUrls br);
      nextUrl := S (nextUrl br) |}).

Definition revokeObjectURL (h : handle) (br : Browser) : Browser :=
  {| objectUrls := delete h (objectUrls br); nextUrl := nextUrl br |}.

(** [urls.forEach((url) => URL.revokeObjectURL(url))] *)
Definition revokeAll (urls : list handle) (br : Browser) : Browser :=
  foldl (fun b h => revokeObjectURL h b) br urls.

(** What the environment decides during one load. *)
Record Env := {
  canvasContext : bool;    (* [canvas.getContext('2d')] is not null *)
  canvasToBlob : bool;     (* [canvas.toBlob] hands over a blob *)
  storageOk : bool;        (* the IndexedDB requests succeed *)
  nowId : Z;               (* the two readings of [Date.now()] *)
  nowStamp : Z
}.

(** [generateThumbnail(blob)]: the handle of the preview, or [None] when
    the promise is rejected. *)
Definition generateThumbnail (env : Env) (blob : Blob) (br : Browser)
  : option handle * Browser :=
  let '(url, br1) := createObjectURL blob br in
  match imageOfBlob blob with
  | Some (w, h) =>
      let '(cw, ch) := canvasSize (defaultThumbnailSize w h) in
      if canvasContext env then
        let br2 := revokeObjectURL url br1 in
        if canvasToBlob env then
          let '(t, br3) := createObjectURL (CanvasBlob cw ch) br2 in
          (Some t, br3)
        else (None, br2)
      else (None, br1)
  | None => (None, revokeObjectURL url br1)
  end.

(** [generateVideoThumbnail(blob)]: the canvas is always 200 by 200. *)
Definition generateVideoThumbnail (env : Env) (blob : Blob) (br : Browser)
  : option handle * Browser :=
  let '(url, br1) := createObjectURL blob br in
  if videoOfBlob blob then
    if canvasContext env then
      let br2 := revokeObjectURL url br1 in
      if canvasToBlob env then
        let '(t, br3) := createObjectURL (CanvasBlob 200 200) br2 in
        (Some t, br3)
      else (None, br2)
    else (None, br1)
  else (None, revokeObjectURL url br1).

(** ** Archives and the persistence store *)

(** An entry of [contents.files]; [None] stands for a rejected promise of
    [async('blob')] or [async('string')]. *)
Record ZipEntry := {
  entryName : jsstring;
  dir : bool;
  asBlob : option Blob;
  asString : option jsstring
}.

(** A file handed to the loader is known by what [JSZip.loadAsync] makes
    of it: [None] when it is not a zip. *)
Record ZipFile := { loadAsync : option (list ZipEntry) }.

Record SavedChat := {
  id : jsstring;
  chatName : jsstring;
  timestamp : Z;
  messageCount : nat;
  participants : list jsstring;
  zipBlob : ZipFile
}.

(** The IndexedDB object store that saveChat, getAllChats and deleteChat
    call is the browser's.  openDB creates the store ['chats'] with
    [keyPath: 'id'], so it holds at most one record per [id]: it is
    modelled as a finite map from [id] to record. *)

(** Modelled from the spec: [store.put(chat)], which is not in the source,
    inserts the record or overwrites the record of the same [id]. *)
Definition storePut (chat : SavedChat) (store : gmap jsstring SavedChat)
  : gmap jsstring SavedChat :=
  <[id chat := chat]> store.

(** Modelled from the spec: [store.getAll()], which is not in the source,
    returns all the records. *)
Definition storeGetAll (store : gmap jsstring SavedChat) : list SavedChat :=
  snd <$> map_to_list store.

(** Modelled from the spec: [store.delete(id)], which is not in the
    source, removes the record of this [id] and does nothing when there is
    none. *)
Definition storeDelete (key : jsstring) (store : gmap jsstring SavedChat)
  : gmap jsstring SavedChat :=
  delete key store.

(** [saveChat], [getAllChats], [deleteChat]: [None] when the promise is
    rejected, and the store is then as it was. *)
Definition saveChat (ok : bool) (chat : SavedChat)
    (store : gmap jsstring SavedChat) : option (gmap jsstring SavedChat) :=
  if ok then Some (storePut chat store) else None.

Definition getAllChats (ok : bool) (store : gmap jsstring SavedChat)
  : option (list SavedChat) :=
  if ok then Some (storeGetAll store) else None.

Definition deleteChat (ok : bool) (key : jsstring)
    (store : gmap jsstring SavedChat) : option (gmap jsstring SavedChat) :=
  if ok then Some (storeDelete key store) else None.

(** ** The state of the component *)

Record SearchState := {
  searchTerm : jsstring;
  searchResults : list nat;
  currentSearchIndex : Z
}.

Record Session := {
  allMessages : list Message;
  allSenders : list jsstring;
  currentUser : jsstring;
  currentChatId : jsstring;
  currentChatName : jsstring
}.

Record State := {
  session : Session;
  search : SearchState;
  loading : bool;
  savedUsername : jsstring;
  savedChats : list SavedChat;
  showMediaPanel : bool;
  blobUrls : list handle;            (* [blobUrls.current] *)
  rowHeights : gmap nat Z;           (* [rowHeights.current] *)
  browser : Browser;
  store : gmap jsstring SavedChat    (* the IndexedDB object store *)
}.

Definition emptySearch : SearchState :=
  {| searchTerm := []; searchResults := []; currentSearchIndex := -1 |}.

Definition emptySession : Session :=
  {| allMessages := []; allSenders := []; currentUser := [];
     currentChatId := []; currentChatName := [] |}.

(** The state after the first render, for a browser and a store. *)
Definition initialState (user : jsstring) (br : Browser)
    (db : gmap jsstring SavedChat) : State :=
  {| session := emptySession; search := emptySearch; loading := false;
     savedUsername := user; savedChats := []; showMediaPanel := false;
     blobUrls := []; rowHeights := ∅; browser := br; store := db |}.

Definition withSearch (st : State) (s : SearchState) : State :=
  {| session := session st; search := s; loading := loading st;
     savedUsername := savedUsername st; savedChats := savedChats st;
     showMediaPanel := showMediaPanel st; blobUrls := blobUrls st;
     rowHeights := rowHeights st; browser := browser st; store := store st |}.

Definition withSession (st : State) (s : Session) : State :=
  {| session := s; search := search st; loading := loading st;
     savedUsername := savedUsername st; savedChats := savedChats st;
     showMediaPanel := showMediaPanel st; blobUrls := blobUrls st;
     rowHeights := rowHeights st; browser := browser st; store := store st |}.

Definition withLoading (st : State) (b : bool) : State :=
  {| session := session st; search := search st; loading := b;
     savedUsername := savedUsername st; savedChats := savedChats st;
     showMediaPanel := showMediaPanel st; blobUrls := blobUrls st;
     rowHeights := rowHeights st; browser := browser st; store := store st |}.

Definition withUrls (st : State) (urls : list handle) (br : Browser) : State :=
  {| session := session st; search := search st; loading := loading st;
     savedUsername := savedUsername st; savedChats := savedChats st;
     showMediaPanel := showMediaPanel st; blobUrls := urls;
     rowHeights := rowHeights st; browser := br; store := store st |}.

Definition withRowHeights (st : State) (h : gmap nat Z) : State :=
  {| session := session st; search := search st; loading := loading st;
     savedUsername := savedUsername st; savedChats := savedChats st;
     showMediaPanel := showMediaPanel st; blobUrls := blobUrls st;
     rowHeights := h; browser := browser st; store := store st |}.

Definition withStore (st : State) (db : gmap jsstring SavedChat) : State :=
  {| session := session st; search := search st; loading := loading st;
     savedUsername := savedUsername st; savedChats := savedChats st;
     showMediaPanel := showMediaPanel st; blobUrls := blobUrls st;
     rowHeights := rowHeights st; browser := browser st; store := db |}.

Definition withSavedChats (st : State) (l : list SavedChat) : State :=
  {| session := session st; search := search st; loading := loading st;
     savedUsername := savedUsername st; savedChats := l;
     showMediaPanel := showMediaPanel st; blobUrls := blobUrls st;
     rowHeights := rowHeights st; browser := browser st; store := store st |}.

Definition withMediaPanel (st : State) (b : bool) : State :=
  {| session := session st; search := search st; loading := loading st;
     savedUsername := savedUsername st; savedChats := savedChats st;
     showMediaPanel := b; blobUrls := blobUrls st;
     rowHeights := rowHeights st; browser := browser st; store := store st |}.

(** ** Search *)

(** [setSearchTerm(e.target.value)] *)
Definition setSearchTerm (t : jsstring) (st : State) : State :=
  withSearch st {| searchTerm := t;
                   searchResults := searchResults (search st);
                   currentSearchIndex := currentSearchIndex (search st) |}.

(** The test of [performSearch] on one message. *)
Definition messageMatches (term : jsstring) (msg : Message) : bool :=
  includes (toLowerCase (text msg)) (toLowerCase term) ||
  includes (toLowerCase (sender msg)) (toLowerCase term).

(** [allMessages.forEach((msg, index) => ...)] pushing the indices of the
    matching messages, from [index] on. *)
Fixpoint collectMatches (term : jsstring) (msgs : list Message) (index : nat)
  : list nat :=
  match msgs with
  | [] => []
  | msg :: msgs' =>
      if messageMatches term msg
      then index :: collectMatches term msgs' (S index)
      else collectMatches term msgs' (S index)
  end.

Definition performSearch (st : State) : State :=
  let term := searchTerm (search st) in
  if negb (truthy (trim term)) then
    withSearch st {| searchTerm := term; searchResults := [];
                     currentSearchIndex := -1 |}
  else
    let results := collectMatches term (allMessages (session st)) 0 in
    withSearch st {| searchTerm := term; searchResults := results;
                     currentSearchIndex :=
                       if 0 <? length results then 0%Z else (-1)%Z |}.

Definition nextSearchResult (st : State) : State :=
  let s := search st in
  if length (searchResults s) =? 0 then st
  else
    let nextIndex :=
      jsrem (currentSearchIndex s + 1) (Z.of_nat (length (searchResults s))) in
    withSearch st {| searchTerm := searchTerm s;
                     searchResults := searchResults s;
                     currentSearchIndex := nextIndex |}.

Definition prevSearchResult (st : State) : State :=
  let s := search st in
  if length (searchResults s) =? 0 then st
  else
    let prevIndex :=
      jsrem (currentSearchIndex s - 1 + Z.of_nat (length (searchResults s)))
            (Z.of_nat (length (searchResults s))) in
    withSearch st {| searchTerm := searchTerm s;
                     searchResults := searchResults s;
                     currentSearchIndex := prevIndex |}.

(** [handleBackToHome] *)
Definition handleBackToHome (st : State) : State :=
  withUrls
    (withMediaPanel (withSearch (withSession st emptySession) emptySearch) false)
    [] (revokeAll (blobUrls st) (browser st)).

(** ** extractChatName *)

(** [fileName.replace(/\.zip$/i, '')] *)
Definition stripZip (fileName : jsstring) : jsstring :=
  let n := length fileName in
  if (4 <=? n) && bool_decide (toLowerCase (drop (n - 4) fileName) = str ".zip")
  then take (n - 4) fileName
  else fileName.

(** [/WhatsApp Chat - (.+)/i], [/WhatsApp Chat with (.+)/i],
    [/WhatsApp (.+)/i] *)
Definition chatNamePatterns : list regex :=
  (fun prefix => {| alts := [lits prefix ++ [Rep Greedy 1 isDot true]];
                    ignoreCase := true |})
  <$> ["WhatsApp Chat - "; "WhatsApp Chat with "; "WhatsApp "]%string.

Fixpoint firstChatName (patterns : list regex) (nameWithoutExt : jsstring)
  : option jsstring :=
  match patterns with
  | [] => None
  | pattern :: patterns' =>
      match matchFirst pattern nameWithoutExt with
      | Some m =>
          if truthy (groupStr 1 m) then Some (trim (groupStr 1 m))
          else firstChatName patterns' nameWithoutExt
      | None => firstChatName patterns' nameWithoutExt
      end
  end.

Definition extractChatName (fileName : jsstring) : jsstring :=
  let nameWithoutExt := stripZip fileName in
  default (trim nameWithoutExt) (firstChatName chatNamePatterns nameWithoutExt).

(** ** processZipFile *)

(** An optional string argument is falsy when it is missing or empty. *)
Definition truthyOpt (o : option jsstring) : bool :=
  match o with Some s => truthy s | None => false end.

(** [[...new Set(l)]]: the first occurrence of each element is kept. *)
Definition unique (l : list jsstring) : list jsstring :=
  foldl (fun acc x => if bool_decide (x ∈ acc) then acc else acc ++ [x]) [] l.

(** [Date.now().toString()] *)
Definition numberToString (n : Z) : jsstring :=
  str (NilEmpty.string_of_int (Z.to_int n)).

(** [contents.file('_chat.txt')]: the entry of that name, unless it is a
    folder. *)
Definition chatFileOf (files : list ZipEntry) : option ZipEntry :=
  match List.find (fun e => bool_decide (entryName e = str "_chat.txt")) files with
  | Some e => if dir e then None else Some e
  | None => None
  end.

(** The thumbnail of one attachment; a rejected promise is caught and
    logged, and leaves [thumbnailUrl] undefined. *)
Definition thumbnailFor (env : Env) (ty : AttachmentType) (blob : Blob)
    (urls : list handle) (br : Browser)
  : option handle * list handle * Browser :=
  match ty with
  | image | sticker =>
      match generateThumbnail env blob br with
      | (Some t, br') => (Some t, urls ++ [t], br')
      | (None, br') => (None, urls, br')
      end
  | video =>
      match generateVideoThumbnail env blob br with
      | (Some t, br') => (Some t, urls ++ [t], br')
      | (None, br') => (None, urls, br')
      end
  | _ => (None, urls, br)
  end.

(** The loop over [Object.entries(contents.files)].  The first component
    is [None] when [zipEntry.async('blob')] throws; the handles pushed to
    [blobUrls.current] and the browser are then as they were at that
    point. *)
Fixpoint extractEntries (env : Env) (entries : list ZipEntry)
    (attachmentMap : gmap jsstring Attachment)
    (urls : list handle) (br : Browser)
  : option (gmap jsstring Attachment) * list handle * Browser :=
  match entries with
  | [] => (Some attachmentMap, urls, br)
  | e :: entries' =>
      if bool_decide (entryName e = str "_chat.txt") || dir e
      then extractEntries env entries' attachmentMap urls br
      else
        match asBlob e with
        | None => (None, urls, br)
        | Some blob =>
            let ty := getAttachmentType (entryName e) in
            let '(url, br1) := createObjectURL blob br in
            let '(thumb, urls2, br2) :=
              thumbnailFor env ty blob (urls ++ [url]) br1 in
            extractEntries env entries'
              (<[entryName e :=
                   {| name := entryName e; type := ty; blobUrl := url;
                      size := sizeOfBlob blob; thumbnailUrl := thumb |}]>
                 attachmentMap)
              urls2 br2
        end
  end.

(** The order of [chats.sort((a, b) => b.timestamp - a.timestamp)]. *)
Definition newerFirst (a b : SavedChat) : Prop :=
  (timestamp b <= timestamp a)%Z.

Global Instance newerFirst_dec : RelDecision newerFirst.
Proof. intros a b. unfold newerFirst. apply _. Defined.

(** [loadSavedChats]: a failure of [getAllChats] is caught and logged. *)
Definition loadSavedChats (env : Env) (st : State) : State :=
  match getAllChats (storageOk env) (store st) with
  | Some chats =>
      withSavedChats st
        (merge_sort newerFirst chats)
  | None => st
  end.

Definition setChat (st : State) (chatId chatName : jsstring) : State :=
  withSession st
    {| allMessages := allMessages (session st);
       allSenders := allSenders (session st);
       currentUser := currentUser (session st);
       currentChatId := chatId; currentChatName := chatName |}.

(** The stretch of [processZipFile] from [setAllMessages(parsed)] to the
    end of the [try] block. *)
Definition installSession (env : Env) (file : ZipFile) (fileName : jsstring)
    (chatId chatName : option jsstring) (parsed : list Message) (st : State)
  : State :=
  let senders := unique ((fun m => trim (sender m)) <$> parsed) in
  let user :=
    if truthy (savedUsername st) && bool_decide (savedUsername st ∈ senders)
    then savedUsername st else [] in
  let st1 :=
    withRowHeights
      (withSession st
         {| allMessages := parsed; allSenders := senders; currentUser := user;
            currentChatId := currentChatId (session st);
            currentChatName := currentChatName (session st) |})
      ∅ in
  if negb (truthyOpt chatId) then
    let newChatId := numberToString (nowId env) in
    let extractedName :=
      if truthyOpt chatName then default [] chatName
      else extractChatName fileName in
    let savedChat :=
      {| id := newChatId; chatName := extractedName;
         timestamp := nowStamp env; messageCount := length parsed;
         participants := senders; zipBlob := file |} in
    match saveChat (storageOk env) savedChat (store st1) with
    | Some db => setChat (loadSavedChats env (withStore st1 db))
                         newChatId extractedName
    | None => st1
    end
  else
    setChat st1 (default [] chatId)
            (if truthyOpt chatName then default [] chatName else []).

(** How a load ends. *)
Inductive Outcome :=
| NotAZip            (* [zip.loadAsync] throws *)
| NoTranscript       (* there is no [_chat.txt] *)
| ExtractionThrows   (* [zipEntry.async('blob')] throws *)
| TranscriptThrows   (* [chatFile.async('string')] throws *)
| ParserDiverges     (* never: parseMessages always returns *)
| MessagesSet.       (* [setAllMessages(parsed)] was reached *)

(** processZipFile with the way it ended.  Every way out goes through
    [setLoading(false)]. *)
Definition processZipFileOutcome (env : Env) (file : ZipFile)
    (fileName : jsstring) (chatId chatName : option jsstring) (st : State)
  : Outcome * State :=
  let st1 := withSearch (withLoading st true) emptySearch in
  match loadAsync file with
  | None => (NotAZip, withLoading st1 false)
  | Some files =>
      match chatFileOf files with
      | None => (NoTranscript, withLoading st1 false)
      | Some chatFile =>
          let br0 := revokeAll (blobUrls st1) (browser st1) in
          match extractEntries env files ∅ [] br0 with
          | (None, urls, br) =>
              (ExtractionThrows, withLoading (withUrls st1 urls br) false)
          | (Some attachmentMap, urls, br) =>
              let st2 := withUrls st1 urls br in
              match asString chatFile with
              | None => (TranscriptThrows, withLoading st2 false)
              | Some text =>
                  match parseMessages text attachmentMap with
                  | None => (ParserDiverges, withLoading st2 false)
                  | Some parsed =>
                      (MessagesSet,
                       withLoading
                         (installSession env file fileName chatId chatName
                                         parsed st2)
                         false)
                  end
              end
          end
      end
  end.

Definition processZipFile (env : Env) (file : ZipFile)
    (fileName : jsstring) (chatId chatName : option jsstring) (st : State)
  : State :=
  snd (processZipFileOutcome env file fileName chatId chatName st).

(** ** The operations as a transition system *)

Inductive Op :=
| SetSearchTerm (t : jsstring)
| PerformSearch
| NextSearchResult
| PrevSearchResult
| ProcessZipFile (env : Env) (file : ZipFile) (fileName : jsstring)
                 (chatId chatName : option jsstring)
| HandleBackToHome.

Definition step (st : State) (op : Op) : State :=
  match op with
  | SetSearchTerm t => setSearchTerm t st
  | PerformSearch => performSearch st
  | NextSearchResult => nextSearchResult st
  | PrevSearchResult => prevSearchResult st
  | ProcessZipFile env file fileName chatId chatName =>
      processZipFile env file fileName chatId chatName st
  | HandleBackToHome => handleBackToHome st
  end.






(** ** Sample transcripts, states and archives *)


Definition alice_hello_bob_hi : jsstring :=
  str "[1/1/24, 10:00] Alice: Hello" ++ [ascii_of_nat 10] ++
  str "[1/1/24, 10:01] Bob: Hi there".

Definition photo_jpg : Attachment :=
  {| name := str "photo.jpg"; type := getAttachmentType (str "photo.jpg");
     blobUrl := 0; size := 1024; thumbnailUrl := None |}.

Definition alice_bob : list Message :=
  [ {| date := str "1/1/24"; time := str "10:00"; sender := str "Alice";
       text := str "Hello Bob"; attachment := None |};
    {| date := str "1/1/24"; time := str "10:01"; sender := str "Bob";
       text := str "a b"; attachment := None |} ].

Definition searching (term : jsstring) (cursor : Z) : State :=
  withSearch
    (withSession (initialState [] {| objectUrls := ∅; nextUrl := 0 |} ∅)
       {| allMessages := alice_bob; allSenders := [str "Alice"; str "Bob"];
          currentUser := []; currentChatId := str "1"; currentChatName := [] |})
    {| searchTerm := term; searchResults := [0; 1]; currentSearchIndex := cursor |}.

Definition family_chat (count : nat) : SavedChat :=
  {| id := str "1700000000000"; chatName := str "Family";
     timestamp := 1700000000000; messageCount := count;
     participants := [str "Alice"; str "Bob"];
     zipBlob := {| loadAsync := None |} |}.

Definition holiday_photo : Attachment :=
  {| name := str "photo.jpg"; type := image; blobUrl := 0; size := 2048;
     thumbnailUrl := Some 1 |}.

(** A session with one picture, whose two handles are alive. *)
Definition viewing_holiday : State :=
  {| session :=
       {| allMessages :=
            [ {| date := str "1/1/24"; time := str "10:00";
                 sender := str "Alice"; text := [];
                 attachment := Some holiday_photo |} ];
          allSenders := [str "Alice"]; currentUser := [];
          currentChatId := str "1700000000000";
          currentChatName := str "Holiday" |};
     search := emptySearch; loading := false; savedUsername := [];
     savedChats := []; showMediaPanel := false;
     blobUrls := [0; 1]; rowHeights := ∅;
     browser :=
       {| objectUrls := {[ 0 := EntryBlob 2048 (Some (400, 300)%Z) false;
                           1 := CanvasBlob 200 150 ]};
          nextUrl := 2 |};
     store := ∅ |}.



Definition quiet_env : Env :=
  {| canvasContext := true; canvasToBlob := true; storageOk := true;
     nowId := 1700000001000; nowStamp := 1700000001000 |}.

(** ** Transcripts in the export format

    The format that the parser reads, as WhatsApp writes it and as the
    README of the repository gives it: one line [[DATE, TIME] SENDER: TEXT]
    per message, the lines separated by a line feed. *)

Definition lineFeed : ascii := ascii_of_nat 10.

Definition headerLine (msg : Message) : jsstring :=
  str "[" ++ date msg ++ str ", " ++ time msg ++ str "] " ++
  sender msg ++ str ":".

Fixpoint transcriptOf (msgs : list Message) : jsstring :=
  match msgs with
  | [] => []
  | msg :: rest =>
      headerLine msg ++ str " " ++ text msg ++
      match rest with
      | [] => []
      | _ :: _ => lineFeed :: transcriptOf rest
      end
  end.

Definition noLeadingSpace (s : jsstring) : Prop :=
  match s with
  | c :: _ => isWhiteSpace c = false
  | [] => True
  end.

(** A message without attachment that the export format can carry: the
    date has no comma, the time no closing bracket, the sender no colon,
    none of them a line break, time and sender do not start with white
    space; the text has no white space at either end and neither an
    opening bracket, which could start a header, nor [<], which could start
    an attachment marker. *)
Record plainMessage (msg : Message) : Prop := {
  plain_date : Forall (fun c => isDot c = true) (date msg) /\
               ","%char ∉ date msg;
  plain_time : Forall (fun c => isDot c = true) (time msg) /\
               ("]"%char ∉ time msg) /\ noLeadingSpace (time msg);
  plain_sender : Forall (fun c => isDot c = true) (sender msg) /\
                 (":"%char ∉ sender msg) /\ noLeadingSpace (sender msg);
  plain_text : trim (text msg) = text msg /\
               ("["%char ∉ text msg) /\ ("<"%char ∉ text msg);
  plain_attachment : attachment msg = None
}.

(** Two plain messages, the first of two lines. *)
Definition shopping_chat : list Message :=
  [ {| date := str "12/03/2024"; time := str "18:05:11"; sender := str "Ann Lee";
       text := str "Milk" ++ [lineFeed] ++ str "and eggs: 12";
       attachment := None |};
    {| date := str "12/03/2024"; time := str "18:06:40"; sender := str "Bo";
       text := []; attachment := None |} ].

(** ** Handles and object URLs *)



(** No object URL is alive without being listed in [blobUrls.current]. *)
Definition allTracked (urls : list handle) (br : Browser) : Prop :=
  forall h, is_Some (objectUrls br !! h) -> h ∈ urls.

Definition tracked (st : State) : Prop :=
  allTracked (blobUrls st) (browser st).

(** The operations whose loads find a canvas context. *)
Definition canvasAvailable (op : Op) : Prop :=
  match op with
  | ProcessZipFile env _ _ _ _ => canvasContext env = true
  | _ => True
  end.

(** An archive with a transcript that refers to its one picture. *)
Definition holiday_zip : ZipFile :=
  {| loadAsync :=
       Some [ {| entryName := str "_chat.txt"; dir := false; asBlob := None;
                 asString :=
                   Some (str "[1/1/24, 10:00] Alice: <attached: photo.jpg> look") |};
              {| entryName := str "photo.jpg"; dir := false;
                 asBlob := Some (EntryBlob 2048 (Some (400, 300)%Z) false);
                 asString := None |} ] |}.

Global Instance newerFirst_total : Total newerFirst.
Proof. intros a b. unfold newerFirst. lia. Defined.

(** ** The other handlers *)

(** [loadSavedChat] *)
Definition loadSavedChat (env : Env) (chat : SavedChat) (st : State) : State :=
  processZipFile env (zipBlob chat) (chatName chat)
                 (Some (id chat)) (Some (chatName chat)) st.

(** [s.endsWith(p)] *)
Definition endsWith (s p : jsstring) : bool :=
  (length p <=? length s) &&
  bool_decide (drop (length s - length p) s = p).

(** [handleDrop] for a dropped file of a given name, [None] when nothing
    was dropped; without a file whose name ends in [.zip] there is only an
    alert. *)
Definition handleDrop (env : Env) (dropped : option (ZipFile * jsstring))
    (st : State) : State :=
  match dropped with
  | Some (file, fileName) =>
      if endsWith fileName (str ".zip")
      then processZipFile env file fileName None None st
      else st
  | None => st
  end.

(** [handleFile] for the file chosen in the input, [None] when there is
    none. *)
Definition handleFile (env : Env) (chosen : option (ZipFile * jsstring))
    (st : State) : State :=
  match chosen with
  | Some (file, fileName) => processZipFile env file fileName None None st
  | None => st
  end.

(** [handleDeleteChat]: [confirmed] is the answer to the confirmation;
    [deleteOk] and [listOk] say whether the request of [deleteChat] and
    the one of [loadSavedChats] succeed. *)
Definition handleDeleteChat (confirmed deleteOk : bool) (listEnv : Env)
    (chatId : jsstring) (st : State) : State :=
  if confirmed then
    match deleteChat deleteOk chatId (store st) with
    | Some db =>
        let st1 := loadSavedChats listEnv (withStore st db) in
        if bool_decide (currentChatId (session st) = chatId)
        then handleBackToHome st1
        else st1
    | None => st
    end
  else st.


(** ** The media panel *)

Inductive MediaFilter := AllMedia | Images | Videos | Documents.

(** [msg.attachment?.type === t1 || msg.attachment?.type === t2] *)
Definition typeAmong (tys : list AttachmentType) (msg : Message) : bool :=
  match attachment msg with
  | Some a => bool_decide (type a ∈ tys)
  | None => false
  end.

(** [getMediaMessages]: [allMessages.filter((msg) => msg.attachment)] *)
Definition getMediaMessages (st : State) : list Message :=
  List.filter (fun msg => match attachment msg with
                          | Some _ => true
                          | None => false
                          end)
              (allMessages (session st)).

(** [getFilteredMedia] *)
Definition getFilteredMedia (mediaFilter : MediaFilter) (st : State)
  : list Message :=
  let mediaMessages := getMediaMessages st in
  match mediaFilter with
  | AllMedia => mediaMessages
  | Images => List.filter (typeAmong [image; sticker]) mediaMessages
  | Videos => List.filter (typeAmong [video]) mediaMessages
  | Documents => List.filter (typeAmong [document; audio]) mediaMessages
  end.

(** ** The rows of the list *)



(** [currentUser && msg.sender === currentUser] in [MessageRow] *)
Definition isSent (st : State) (msg : Message) : bool :=
  truthy (currentUser (session st)) &&
  bool_decide (sender msg = currentUser (session st)).

(** [setCurrentUser(e.target.value)] of the sender menu *)
Definition setCurrentUser (user : jsstring) (st : State) : State :=
  withSession st
    {| allMessages := allMessages (session st);
       allSenders := allSenders (session st);
       currentUser := user;
       currentChatId := currentChatId (session st);
       currentChatName := currentChatName (session st) |}.

(** ** Properties of the matcher *)

Lemma rep_inv {R} (cls : ascii -> bool) (k : jsstring -> option R) q min s w r :
  rep cls k q min s = Some (w, r) ->
  exists s', s = w ++ s' /\ k s' = Some r /\ min <= length w.
Proof.
  revert min w r.
  induction s as [|c s IH]; intros min w r H.
  - destruct q, min; simpl in H; try discriminate;
      destruct (k []) eqn:Hk; simpl in H; inversion H; subst;
      exists []; auto.
  - assert (Hmore : forall w r,
      (if cls c then (fun '(w, r) => (c :: w, r)) <$> rep cls k q (pred min) s
       else None) = Some (w, r) ->
      exists s', c :: s = w ++ s' /\ k s' = Some r /\ min <= length w).
    { intros w0 r0 H0. destruct (cls c); [|discriminate].
      destruct (rep cls k q (pred min) s) as [[w1 r1]|] eqn:Hr;
        simpl in H0; inversion H0; subst.
      destruct (IH _ _ _ Hr) as (s' & -> & Hk & Hlen).
      exists s'. simpl. repeat split; auto. lia. }
    assert (Hstop : forall w r,
      match min with O => pair [] <$> k (c :: s) | S _ => None end = Some (w, r) ->
      exists s', c :: s = w ++ s' /\ k s' = Some r /\ min <= length w).
    { intros w0 r0 H0. destruct min; [|discriminate].
      destruct (k (c :: s)) eqn:Hk; simpl in H0; inversion H0; subst.
      exists (c :: s). auto. }
    destruct q; simpl in H.
    + destruct (if cls c then _ else None) as [[w1 r1]|] eqn:Hm.
      * inversion H; subst. eauto.
      * eauto.
    + destruct (match min with O => _ | S _ => None end) as [[w1 r1]|] eqn:Hs.
      * inversion H; subst. eauto.
      * eauto.
Qed.

(** What a sequence matches is a prefix of the input, at least as long as
    the number of literal characters of the sequence. *)
Lemma matchItems_inv ic items s caps rest :
  matchItems ic items s = Some (caps, rest) ->
  exists w, s = w ++ rest /\ litCount items <= length w.
Proof.
  revert s caps rest.
  induction items as [|it items IH]; intros s caps rest H.
  - simpl in H. inversion H; subst. exists []. split; [done | simpl; lia].
  - destruct it as [c | q min cls cap]; simpl in H.
    + destruct s as [|x s]; [discriminate|].
      destruct (charMatches ic c x); [|discriminate].
      destruct (IH _ _ _ H) as (w & -> & Hlen).
      exists (x :: w). split; [done | simpl; lia].
    + destruct (rep cls (matchItems ic items) q min s) as [[w [caps' rest']]|] eqn:Hr;
        [|discriminate].
      inversion H; subst.
      destruct (rep_inv _ _ _ _ _ _ _ Hr) as (s' & -> & Hk & _).
      destruct (IH _ _ _ Hk) as (w' & -> & Hlen).
      exists (w ++ w'). split; [by rewrite <- app_assoc |].
      simpl. rewrite length_app. lia.
Qed.

Lemma matchAlts_header_inv s caps rest :
  matchAlts false (alts messageRegex) s = Some (caps, rest) ->
  exists w, s = w ++ rest /\ 4 <= length w.
Proof.
  unfold messageRegex; simpl alts. unfold matchAlts.
  destruct (matchItems false _ s) as [[caps' rest']|] eqn:H; [|discriminate].
  intros Heq; inversion Heq; subst.
  apply matchItems_inv in H as (w & -> & Hlen). exists w. split; [done|].
  exact Hlen.
Qed.

Lemma searchFrom_shift re s k idx :
  searchFrom re s (k + idx) = shift k <$> searchFrom re s idx.
Proof.
  revert idx. induction s as [|c s IH]; intros idx; simpl.
  - destruct (matchAlts _ _ []) as [[caps rest]|]; simpl; [|done].
    unfold shift; simpl. do 2 f_equal. lia.
  - destruct (matchAlts _ _ (c :: s)) as [[caps rest]|]; simpl.
    + unfold shift; simpl. do 2 f_equal. lia.
    + rewrite <- IH. f_equal. lia.
Qed.

(** The match found from [idx] starts at [m_index m]: nothing matches
    before it, and the pattern matches the input from there. *)
Lemma searchFrom_inv re s idx m :
  searchFrom re s idx = Some m ->
  exists caps rest,
    idx <= m_index m /\
    matchAlts (ignoreCase re) (alts re) (drop (m_index m - idx) s) = Some (caps, rest) /\
    m_groups m = caps /\
    m_end m = m_index m + (length (drop (m_index m - idx) s) - length rest) /\
    m_whole m = take (length (drop (m_index m - idx) s) - length rest) (drop (m_index m - idx) s) /\
    m_index m - idx <= length s /\
    searchFrom re (drop (m_index m - idx) s) 0 =
      Some {| m_index := 0; m_whole := m_whole m; m_groups := caps;
              m_end := m_end m - m_index m |}.
Proof.
  revert idx. induction s as [|c s IH]; intros idx H; simpl in H.
  - destruct (matchAlts _ _ []) as [[caps rest]|] eqn:Ha; [|discriminate].
    inversion H; subst; simpl. exists caps, rest.
    rewrite Nat.sub_diag. simpl. rewrite Ha. simpl.
    repeat split; try done; try lia. do 2 f_equal. lia.
  - destruct (matchAlts _ _ (c :: s)) as [[caps rest]|] eqn:Ha.
    + inversion H; subst; simpl. exists caps, rest.
      rewrite Nat.sub_diag. rewrite drop_0. simpl. rewrite Ha. simpl.
      repeat split; try done; try lia. do 2 f_equal. lia.
    + destruct (IH _ H) as (caps & rest & Hle & Hm & Hg & He & Hw & Hlen & Hs).
      exists caps, rest.
      replace (m_index m - idx) with (S (m_index m - S idx)) by lia.
      simpl. repeat split; auto; lia.
Qed.

Lemma exec_header_bounds text lastIndex m :
  exec messageRegex text lastIndex = Some m ->
  lastIndex <= m_index m /\ m_index m + 4 <= m_end m /\ m_end m <= length text.
Proof.
  unfold exec. destruct (length text <? lastIndex) eqn:Hlt; [discriminate|].
  apply Nat.ltb_ge in Hlt. intros H.
  apply searchFrom_inv in H
    as (caps & rest & Hle & Hm & _ & He & _ & Hlen & _).
  apply matchAlts_header_inv in Hm as (w & Hw & H4).
  rewrite Hw in He. rewrite length_app in He.
  assert (length (drop (m_index m - lastIndex) (drop lastIndex text)) =
          length w + length rest) by (rewrite Hw, length_app; done).
  rewrite !length_drop in H. rewrite length_drop in Hlen. lia.
Qed.

Lemma exec_drop re text i j :
  i <= length text ->
  exec re text (i + j) = shift i <$> exec re (drop i text) j.
Proof.
  intros Hi. unfold exec. rewrite length_drop.
  destruct (Nat.ltb_spec (length text) (i + j)) as [H1|H1];
    destruct (Nat.ltb_spec (length text - i) j) as [H2|H2]; try lia.
  - done.
  - rewrite drop_drop. apply searchFrom_shift.
Qed.

Lemma substring_drop text i a b :
  i <= length text ->
  substring text (i + a) (i + b) = substring (drop i text) a b.
Proof.
  intros Hi. unfold substring. rewrite length_drop, drop_drop.
  replace ((i + a) `min` length text) with (i + a `min` (length text - i)) by lia.
  replace ((i + b) `min` length text) with (i + b `min` (length text - i)) by lia.
  f_equal; [lia | f_equal; lia].
Qed.

(** ** The loop of parseMessages against the scan of the headers *)

Lemma updateLast_snoc acc x f :
  updateLast (acc ++ [x]) f = acc ++ [f x].
Proof.
  unfold updateLast. rewrite length_app. simpl.
  replace (length acc + 1 - 1) with (length acc + 0) by lia.
  rewrite lookup_app_r by lia.
  replace (length acc + 0 - length acc) with 0 by lia. simpl.
  rewrite insert_app_r. reflexivity.
Qed.

Lemma headerScan_length text i ms :
  headerScan text i ms -> i <= length text -> i + length ms <= length text.
Proof.
  induction 1 as [i H | i m ms H Hscan IH]; intros Hi; simpl; [lia|].
  apply exec_header_bounds in H. lia.
Qed.

Lemma headerScan_exists text n :
  forall i, length text - i <= n -> i <= length text ->
  exists ms, headerScan text i ms.
Proof.
  induction n as [|n IH]; intros i Hn Hi.
  - destruct (exec messageRegex text i) as [m|] eqn:He.
    + apply exec_header_bounds in He. lia.
    + exists []. by constructor.
  - destruct (exec messageRegex text i) as [m|] eqn:He.
    + pose proof (exec_header_bounds _ _ _ He) as Hb.
      destruct (IH (m_end m)) as [ms Hms]; [lia | lia |].
      exists (m :: ms). by econstructor.
    + exists []. by constructor.
Qed.

Lemma headerScan_fun text i ms1 ms2 :
  headerScan text i ms1 -> headerScan text i ms2 -> ms1 = ms2.
Proof.
  intros H; revert ms2.
  induction H as [i H | i m ms H Hscan IH]; intros ms2 H2; inversion H2; subst;
    try congruence.
  assert (m0 = m) by congruence. subst. f_equal. by apply IH.
Qed.

Lemma parseLoop_scan text amap i ms :
  headerScan text i ms ->
  forall fuel acc m0,
    length ms < fuel -> m_end m0 = i ->
    (fun '(parsed, lastIndex) => assignLast text amap parsed lastIndex)
      <$> parseLoop fuel text amap (acc ++ [newMessage m0]) i
    = Some (acc ++ messagesOf text amap (m0 :: ms)).
Proof.
  induction 1 as [i H | i m ms H Hscan IH]; intros fuel acc m0 Hfuel Hm0;
    subst i.
  - destruct fuel as [|fuel]; [simpl in Hfuel; lia|]. simpl. rewrite H. simpl.
    unfold assignLast. rewrite length_app. simpl.
    replace (0 <? length acc + 1) with true by (symmetry; apply Nat.ltb_lt; lia).
    rewrite updateLast_snoc. reflexivity.
  - destruct fuel as [|fuel]; [simpl in Hfuel; lia|]. simpl. rewrite H.
    rewrite length_app. simpl.
    replace (0 <? length acc + 1) with true by (symmetry; apply Nat.ltb_lt; lia).
    rewrite updateLast_snoc. rewrite <- app_assoc.
    specialize (IH fuel (acc ++ [assignBody amap (newMessage m0)
                            (trim (substring text (m_end m0) (m_index m)))]) m).
    rewrite <- app_assoc in IH. simpl in IH. simpl.
    rewrite IH by (simpl in Hfuel; lia || reflexivity).
    rewrite <- app_assoc. reflexivity.
Qed.

(** parseMessages returns, for every transcript, the messages of its
    headers. *)
Lemma parseMessages_scan text amap ms :
  headerScan text 0 ms ->
  parseMessages text amap = Some (messagesOf text amap ms).
Proof.
  intros Hscan. unfold parseMessages, parseMessagesFuel.
  pose proof (headerScan_length _ _ _ Hscan ltac:(lia)) as Hlen.
  inversion Hscan as [i H | i m ms' H Hscan']; subst.
  - simpl. rewrite H. done.
  - simpl parseLoop. rewrite H. simpl app.
    pose proof (parseLoop_scan text amap _ _ Hscan' (length text) [] m) as Hl.
    simpl in Hl, Hlen. specialize (Hl ltac:(lia) eq_refl).
    destruct (parseLoop _ _ _ _ _) as [[parsed li]|]; simpl in Hl; [|discriminate].
    done.
Qed.
(** ** Text before the first header *)


Lemma newMessage_shift i m : newMessage (shift i m) = newMessage m.
Proof. reflexivity. Qed.

Lemma messagesOf_drop text amap i ms :
  i <= length text ->
  messagesOf text amap (shift i <$> ms) = messagesOf (drop i text) amap ms.
Proof.
  intros Hi. induction ms as [|m ms IH]; [reflexivity|].
  rewrite fmap_cons. cbn [messagesOf]. rewrite IH, newMessage_shift.
  do 2 f_equal. unfold bodyOf. f_equal.
  assert (bodyEnd text (shift i <$> ms) = i + bodyEnd (drop i text) ms) as ->.
  { destruct ms; simpl; [rewrite length_drop; lia | reflexivity]. }
  cbn [shift m_end]. by apply substring_drop.
Qed.

Lemma parseMessages_total text amap :
  exists ms, headerScan text 0 ms /\
             parseMessages text amap = Some (messagesOf text amap ms).
Proof.
  destruct (headerScan_exists text (length text) 0) as [ms Hms]; [lia | lia |].
  exists ms. split; [assumption | by apply parseMessages_scan].
Qed.




Lemma assignBody_header amap msg body :
  date (assignBody amap msg body) = date msg /\
  time (assignBody amap msg body) = time msg /\
  sender (assignBody amap msg body) = sender msg.
Proof.
  unfold assignBody.
  destruct (matchFirst attachmentRegex body) as [am|]; [|done].
  destruct (group 1 am) as [f|]; [|done].
  destruct (if truthy f then amap !! f else None); done.
Qed.


(** ** Facts about the string operations *)

Lemma startsWith_spec s p :
  startsWith s p = true <-> exists post, s = p ++ post.
Proof.
  revert s. induction p as [|a p IH]; intros s.
  - split; [intros _; by exists s | by destruct s].
  - destruct s as [|b s]; simpl.
    + split; [done | intros [post H]; discriminate].
    + destruct (Ascii.eqb_spec a b) as [->|Hne].
      * rewrite IH. split; intros [post H]; exists post; simpl in *; congruence.
      * split; [done | intros [post H]; simpl in H; congruence].
Qed.

Lemma indexOf_nil p :
  indexOf [] p = if startsWith [] p then Some 0 else None.
Proof. reflexivity. Qed.

Lemma indexOf_cons c s p :
  indexOf (c :: s) p =
  if startsWith (c :: s) p then Some 0 else S <$> indexOf s p.
Proof. reflexivity. Qed.

Lemma indexOf_Some s p i :
  indexOf s p = Some i ->
  s = take i s ++ p ++ drop (i + length p) s.
Proof.
  revert i. induction s as [|c s IH]; intros i.
  - rewrite indexOf_nil. destruct (startsWith [] p) eqn:Hs; [|done].
    intros [= <-]. apply startsWith_spec in Hs as [post Hs].
    destruct p; [done | discriminate].
  - rewrite indexOf_cons. destruct (startsWith (c :: s) p) eqn:Hs.
    + intros [= <-]. apply startsWith_spec in Hs as [post Hs].
      rewrite Hs at 1. rewrite Hs. simpl. by rewrite drop_app_length.
    + destruct (indexOf s p) as [j|] eqn:Hj; simpl; [|done].
      intros [= <-]. simpl. f_equal. by apply IH.
Qed.

Lemma indexOf_None s p : indexOf s p = None -> ~ isSubstring p s.
Proof.
  induction s as [|c s IH].
  - rewrite indexOf_nil.
    destruct (startsWith [] p) eqn:Hs; [done|]. intros _ (pre & post & H).
    destruct pre; [|discriminate]. simpl in H.
    assert (startsWith [] p = true) by (apply startsWith_spec; eauto).
    congruence.
  - rewrite indexOf_cons. destruct (startsWith (c :: s) p) eqn:Hs; [done|].
    destruct (indexOf s p) eqn:Hj; [done|]. intros _ (pre & post & H).
    destruct pre as [|c' pre]; simpl in H.
    + assert (startsWith (c :: s) p = true) by (apply startsWith_spec; eauto).
      congruence.
    + apply IH; [done|]. exists pre, post. congruence.
Qed.

Lemma includes_spec s p : includes s p = true <-> isSubstring p s.
Proof.
  unfold includes. destruct (indexOf s p) as [i|] eqn:Hi.
  - split; [intros _ | done]. apply indexOf_Some in Hi. by eexists _, _.
  - split; [done|]. intros H. by apply indexOf_None in Hi.
Qed.

Lemma includes_false s p : includes s p = false <-> ~ isSubstring p s.
Proof.
  rewrite <- includes_spec. by destruct (includes s p).
Qed.

Lemma trimStart_nil s : trimStart s = [] <-> whitespaceOnly s.
Proof.
  unfold whitespaceOnly. induction s as [|c s IH]; simpl.
  - split; [constructor | done].
  - destruct (isWhiteSpace c) eqn:Hc.
    + rewrite IH. split; [by constructor | by inversion 1].
    + split; [done | inversion 1; congruence].
Qed.

Lemma trimStart_suffix s : exists ws, s = ws ++ trimStart s /\ whitespaceOnly ws.
Proof.
  induction s as [|c s (ws & IH & Hws)]; simpl.
  - exists []. split; [done | constructor].
  - destruct (isWhiteSpace c) eqn:Hc.
    + exists (c :: ws). split; [simpl; congruence | by constructor].
    + exists []. split; [done | constructor].
Qed.

Lemma trim_nil s : trim s = [] <-> whitespaceOnly s.
Proof.
  unfold trim, trimEnd. split.
  - intros H. apply (f_equal (@rev ascii)) in H.
    rewrite rev_involutive in H. simpl in H.
    apply trimStart_nil in H. unfold whitespaceOnly in H.
    apply Forall_rev in H. rewrite rev_involutive in H.
    destruct (trimStart_suffix s) as (ws & Hs & Hws).
    rewrite Hs. apply Forall_app. split; assumption.
  - intros H. apply trimStart_nil in H. rewrite H. reflexivity.
Qed.

Lemma isWhiteSpace_lowerChar c : isWhiteSpace (lowerChar c) = isWhiteSpace c.
Proof. by destruct c as [[] [] [] [] [] [] [] []]. Qed.

Lemma whitespaceOnly_toLowerCase s :
  whitespaceOnly (toLowerCase s) <-> whitespaceOnly s.
Proof.
  unfold whitespaceOnly, toLowerCase. rewrite Forall_map.
  apply Forall_iff. intros c. simpl. by rewrite isWhiteSpace_lowerChar.
Qed.

(** The segments of a name that ends in [sep :: e] end with those of [e]. *)
Lemma split_app sep stem e :
  exists f front, split sep (stem ++ sep :: e) = (f :: front) ++ split sep e.
Proof.
  induction stem as [|c stem (f & front & IH)]; simpl.
  - rewrite Ascii.eqb_refl. by exists [], [].
  - destruct (Ascii.eqb c sep).
    + rewrite IH. by exists [], (f :: front).
    + rewrite IH. simpl. by exists (c :: f), front.
Qed.

Lemma split_no_sep sep e : sep ∉ e -> split sep e = [e].
Proof.
  induction e as [|c e IH]; intros H; simpl; [done|].
  apply not_elem_of_cons in H as [Hne He].
  destruct (Ascii.eqb_spec c sep) as [->|_]; [done|]. by rewrite IH.
Qed.

Lemma extOf_dot stem e :
  "."%char ∉ e -> extOf (stem ++ "."%char :: e) = toLowerCase e.
Proof.
  intros H. unfold extOf, pop.
  destruct (split_app "."%char stem e) as (f & front & ->).
  rewrite split_no_sep by assumption.
  rewrite last_app. simpl. by destruct e.
Qed.

Lemma extOf_no_dot e : "."%char ∉ e -> extOf e = toLowerCase e.
Proof.
  intros H. unfold extOf, pop. rewrite split_no_sep by assumption.
  simpl. by destruct e.
Qed.

(** ** Facts about the search *)

Lemma messageMatches_spec term msg :
  messageMatches term msg = true <->
  ciSubstring term (text msg) \/ ciSubstring term (sender msg).
Proof.
  unfold messageMatches, ciSubstring.
  rewrite orb_true_iff, !includes_spec. reflexivity.
Qed.

Lemma collectMatches_spec term msgs index i :
  i ∈ collectMatches term msgs index <->
  exists msg, index <= i /\ msgs !! (i - index) = Some msg /\
              messageMatches term msg = true.
Proof.
  revert index. induction msgs as [|m msgs IH]; intros index; simpl.
  - split; [by intros ?%elem_of_nil | by intros (? & _ & ? & _)].
  - assert (Hrest : i ∈ collectMatches term msgs (S index) <->
      exists msg, S index <= i /\ (m :: msgs) !! (i - index) = Some msg /\
                  messageMatches term msg = true).
    { rewrite IH. split; intros (msg & Hle & Hl & Hm); exists msg.
      - replace (i - index) with (S (i - S index)) by lia. done.
      - replace (i - index) with (S (i - S index)) in Hl by lia. done. }
    destruct (messageMatches term m) eqn:Hm.
    + rewrite elem_of_cons, Hrest. split.
      * intros [-> | (msg & Hle & Hl & Hmm)].
        -- exists m. rewrite Nat.sub_diag. done.
        -- exists msg. split; [lia | done].
      * intros (msg & Hle & Hl & Hmm).
        destruct (decide (i = index)) as [->|Hne]; [by left | right].
        exists msg. split; [lia | done].
    + rewrite Hrest. split.
      * intros (msg & Hle & Hl & Hmm). exists msg. split; [lia | done].
      * intros (msg & Hle & Hl & Hmm).
        destruct (decide (i = index)) as [->|Hne].
        -- rewrite Nat.sub_diag in Hl. simpl in Hl. congruence.
        -- exists msg. split; [lia | done].
Qed.


Lemma collectMatches_lower t1 t2 msgs index :
  toLowerCase t1 = toLowerCase t2 ->
  collectMatches t1 msgs index = collectMatches t2 msgs index.
Proof.
  intros H. revert index. induction msgs as [|m msgs IH]; intros index; simpl;
    [done|].
  unfold messageMatches. rewrite H, !IH. done.
Qed.

Lemma truthy_trim_lower t1 t2 :
  toLowerCase t1 = toLowerCase t2 -> truthy (trim t1) = truthy (trim t2).
Proof.
  intros H.
  assert (Hw : whitespaceOnly t1 <-> whitespaceOnly t2).
  { rewrite <- (whitespaceOnly_toLowerCase t1), <- (whitespaceOnly_toLowerCase t2).
    by rewrite H. }
  rewrite <- !trim_nil in Hw.
  destruct (trim t1), (trim t2); simpl; try done.
  - by destruct Hw as [Hw _]; specialize (Hw eq_refl).
  - by destruct Hw as [_ Hw]; specialize (Hw eq_refl).
Qed.

Lemma withSearch_search st : withSearch st (search st) = st.
Proof. by destruct st. Qed.

Lemma searchState_eta s :
  {| searchTerm := searchTerm s; searchResults := searchResults s;
     currentSearchIndex := currentSearchIndex s |} = s.
Proof. by destruct s. Qed.

(** [k] calls of nextSearchResult move a valid cursor [k] places round
    the results. *)
Lemma nextSearchResult_iter st k :
  searchResults (search st) <> [] ->
  (0 <= currentSearchIndex (search st))%Z ->
  Nat.iter k nextSearchResult st =
  withSearch st
    {| searchTerm := searchTerm (search st);
       searchResults := searchResults (search st);
       currentSearchIndex :=
         if k =? 0 then currentSearchIndex (search st)
         else ((currentSearchIndex (search st) + Z.of_nat k)
               mod Z.of_nat (length (searchResults (search st))))%Z |}.
Proof.
  intros Hne Hc.
  assert (Hn : (0 < Z.of_nat (length (searchResults (search st))))%Z).
  { destruct (searchResults (search st)); [done | simpl; lia]. }
  induction k as [|k IH].
  - simpl. by rewrite searchState_eta, withSearch_search.
  - simpl Nat.iter. rewrite IH. unfold nextSearchResult. simpl.
    destruct (length (searchResults (search st)) =? 0) eqn:Hz;
      [apply Nat.eqb_eq in Hz; lia|].
    unfold withSearch. simpl. do 2 f_equal. unfold jsrem.
    destruct (k =? 0) eqn:Hk.
    + apply Nat.eqb_eq in Hk. subst k. rewrite Z.rem_mod_nonneg by lia. done.
    + rewrite Z.rem_mod_nonneg.
      * rewrite Zplus_mod_idemp_l. f_equal. lia.
      * pose proof (Z.mod_pos_bound
          (currentSearchIndex (search st) + Z.of_nat k)
          (Z.of_nat (length (searchResults (search st)))) Hn). lia.
      * lia.
Qed.

(** ** The three extension lists are disjoint *)

Lemma videoExts_not_image e : e ∈ videoExts -> e ∉ imageExts.
Proof.
  unfold videoExts. rewrite !elem_of_cons, elem_of_nil.
  intros [->|[->|[->|[->|[->|[]]]]]];
    apply (bool_decide_unpack _); vm_compute; exact I.
Qed.

Lemma audioExts_not_image_video e :
  e ∈ audioExts -> (e ∉ imageExts) /\ (e ∉ videoExts).
Proof.
  unfold audioExts. rewrite !elem_of_cons, elem_of_nil.
  intros [->|[->|[->|[->|[]]]]]; split;
    apply (bool_decide_unpack _); vm_compute; exact I.
Qed.

(** ** Facts about the loader *)

Lemma loadSavedChats_session env st :
  session (loadSavedChats env st) = session st.
Proof. unfold loadSavedChats. by destruct (getAllChats _ _). Qed.





(** ** Facts about the cursor *)




(** ** The parser on the examples of the specification *)

Example parseMessages_two_messages :
  parseMessages alice_hello_bob_hi ∅ =
  Some [ {| date := str "1/1/24"; time := str "10:00"; sender := str "Alice";
            text := str "Hello"; attachment := None |};
         {| date := str "1/1/24"; time := str "10:01"; sender := str "Bob";
            text := str "Hi there"; attachment := None |} ].
Proof. vm_compute. reflexivity. Qed.

Example parseMessages_resolved_attachment :
  parseMessages (str "[1/1/24, 10:00] Alice: <attached: photo.jpg>")
                {[ str "photo.jpg" := photo_jpg ]} =
  Some [ {| date := str "1/1/24"; time := str "10:00"; sender := str "Alice";
            text := []; attachment := Some photo_jpg |} ]
  /\ type photo_jpg = image.
Proof. split; vm_compute; reflexivity. Qed.

(** ** C3: one message per header *)



(** ** C1: markers that cannot be resolved *)




(** ** C4: classification of attachments *)

(** C4. For every file name, getAttachmentType is decided by the extension,
    letter case ignored: an extension among jpg, jpeg, png, gif, webp gives
    image, among mp4, avi, mov, webm, mkv video, among mp3, wav, ogg, m4a
    audio; only for another extension is the name searched for "sticker",
    letter case ignored, which gives sticker, and document otherwise.  The
    extension is what follows the last dot of the name, and the whole name
    when it has no dot.  "IMG-20240101-sticker.webp" is an image. *)
Theorem C4_classify_by_extension (filename : jsstring) :
  let ext := extOf filename in
  (ext ∈ imageExts -> getAttachmentType filename = image) /\
  (ext ∈ videoExts -> getAttachmentType filename = video) /\
  (ext ∈ audioExts -> getAttachmentType filename = audio) /\
  (ext ∉ imageExts ++ videoExts ++ audioExts ->
     (ciSubstring (str "sticker") filename ->
        getAttachmentType filename = sticker) /\
     (~ ciSubstring (str "sticker") filename ->
        getAttachmentType filename = document)) /\
  (forall stem e, filename = stem ++ "."%char :: e -> "."%char ∉ e ->
     ext = toLowerCase e) /\
  ("."%char ∉ filename -> ext = toLowerCase filename) /\
  getAttachmentType (str "IMG-20240101-sticker.webp") = image.
Proof.
  intros ext. unfold getAttachmentType, arrayIncludes. fold ext.
  repeat split.
  - intros H. by rewrite bool_decide_eq_true_2.
  - intros H. rewrite bool_decide_eq_false_2 by by apply videoExts_not_image.
    by rewrite bool_decide_eq_true_2.
  - intros H. destruct (audioExts_not_image_video _ H) as [Hi Hv].
    rewrite !bool_decide_eq_false_2 by assumption.
    by rewrite bool_decide_eq_true_2.
  - intros Hs. rewrite !elem_of_app in H.
    rewrite !bool_decide_eq_false_2 by tauto.
    apply includes_spec in Hs.
    change (toLowerCase (str "sticker")) with (str "sticker") in Hs.
    by rewrite Hs.
  - intros Hs. rewrite !elem_of_app in H.
    rewrite !bool_decide_eq_false_2 by tauto.
    apply includes_false in Hs.
    change (toLowerCase (str "sticker")) with (str "sticker") in Hs.
    by rewrite Hs.
  - intros stem e -> He. by apply extOf_dot.
  - apply extOf_no_dot.
Qed.

Lemma C4_classify_by_extension_witness :
  getAttachmentType (str "Holiday.Snap.JPG") = image /\
  getAttachmentType (str "clip.MkV") = video /\
  getAttachmentType (str "voice.m4a") = audio /\
  getAttachmentType (str "My-STICKER.bin") = sticker /\
  getAttachmentType (str "notes.pdf") = document /\
  extOf (str "Holiday.Snap.JPG") = str "jpg" /\
  extOf (str "README") = str "readme".
Proof.
  assert (Himage : getAttachmentType (str "Holiday.Snap.JPG") = image).
  { destruct (C4_classify_by_extension (str "Holiday.Snap.JPG")) as (H & _).
    apply H. apply (bool_decide_unpack _). vm_compute. exact I. }
  assert (Hvideo : getAttachmentType (str "clip.MkV") = video).
  { destruct (C4_classify_by_extension (str "clip.MkV")) as (_ & H & _).
    apply H. apply (bool_decide_unpack _). vm_compute. exact I. }
  assert (Haudio : getAttachmentType (str "voice.m4a") = audio).
  { destruct (C4_classify_by_extension (str "voice.m4a")) as (_ & _ & H & _).
    apply H. apply (bool_decide_unpack _). vm_compute. exact I. }
  assert (Hsticker : getAttachmentType (str "My-STICKER.bin") = sticker).
  { destruct (C4_classify_by_extension (str "My-STICKER.bin"))
      as (_ & _ & _ & H & _).
    destruct H as [H _]; [apply (bool_decide_unpack _); vm_compute; exact I|].
    apply H. exists (str "my-"), (str ".bin"). vm_compute. reflexivity. }
  assert (Hdocument : getAttachmentType (str "notes.pdf") = document).
  { destruct (C4_classify_by_extension (str "notes.pdf"))
      as (_ & _ & _ & H & _).
    destruct H as [_ H]; [apply (bool_decide_unpack _); vm_compute; exact I|].
    apply H. apply includes_false. vm_compute. reflexivity. }
  assert (Hext : extOf (str "Holiday.Snap.JPG") = str "jpg").
  { destruct (C4_classify_by_extension (str "Holiday.Snap.JPG"))
      as (_ & _ & _ & _ & He & _).
    apply (He (str "Holiday.Snap") (str "JPG")); [reflexivity|].
    apply (bool_decide_unpack _). vm_compute. exact I. }
  assert (Hwhole : extOf (str "README") = str "readme").
  { destruct (C4_classify_by_extension (str "README"))
      as (_ & _ & _ & _ & _ & He & _).
    apply He. apply (bool_decide_unpack _). vm_compute. exact I. }
  exact (conj Himage (conj Hvideo (conj Haudio (conj Hsticker
           (conj Hdocument (conj Hext Hwhole)))))).
Defined.

(** ** C5: the cursor goes round the results *)

(** C5. When the results are not empty and the cursor is one of their
    indices, nextSearchResult moves it to (cursor + 1) mod resultCount and
    prevSearchResult to (cursor - 1 + resultCount) mod resultCount, neither
    changes the results, and resultCount calls of nextSearchResult bring
    the state back to where it started.  When the results are empty both
    leave the state as it is. *)
Theorem C5_cursor_circular (st : State) :
  let s := search st in
  let resultCount := Z.of_nat (length (searchResults s)) in
  (searchResults s = [] ->
     nextSearchResult st = st /\ prevSearchResult st = st) /\
  (searchResults s <> [] ->
   (0 <= currentSearchIndex s < resultCount)%Z ->
     currentSearchIndex (search (nextSearchResult st))
       = ((currentSearchIndex s + 1) mod resultCount)%Z /\
     currentSearchIndex (search (prevSearchResult st))
       = ((currentSearchIndex s - 1 + resultCount) mod resultCount)%Z /\
     searchResults (search (nextSearchResult st)) = searchResults s /\
     searchResults (search (prevSearchResult st)) = searchResults s /\
     Nat.iter (length (searchResults s)) nextSearchResult st = st).
Proof.
  intros s resultCount. subst s resultCount. split.
  - intros H. unfold nextSearchResult, prevSearchResult. by rewrite H.
  - intros Hne Hc.
    assert (Hlen : (length (searchResults (search st)) =? 0) = false).
    { apply Nat.eqb_neq. by destruct (searchResults (search st)). }
    unfold nextSearchResult, prevSearchResult. rewrite Hlen. simpl.
    unfold jsrem. rewrite !Z.rem_mod_nonneg by lia.
    repeat split.
    rewrite nextSearchResult_iter by (assumption || lia). rewrite Hlen.
    rewrite <- Zplus_mod_idemp_r, Z_mod_same_full, Z.add_0_r.
    rewrite Z.mod_small by lia.
    by rewrite searchState_eta, withSearch_search.
Qed.

Lemma C5_cursor_circular_witness :
  currentSearchIndex (search (nextSearchResult (searching (str "bob") 1))) = 0%Z /\
  currentSearchIndex (search (prevSearchResult (searching (str "bob") 0))) = 1%Z /\
  Nat.iter 2 nextSearchResult (searching (str "bob") 1)
    = searching (str "bob") 1 /\
  nextSearchResult (performSearch (searching (str "carol") 1))
    = performSearch (searching (str "carol") 1).
Proof.
  destruct (C5_cursor_circular (searching (str "bob") 1)) as [_ H1].
  destruct H1 as (Hn & _ & _ & _ & Hi); [discriminate | simpl; lia |].
  destruct (C5_cursor_circular (searching (str "bob") 0)) as [_ H0].
  destruct H0 as (_ & Hp & _); [discriminate | simpl; lia |].
  destruct (C5_cursor_circular (performSearch (searching (str "carol") 1)))
    as [[He _] _]; [reflexivity|].
  refine (conj _ (conj _ (conj Hi He))); [rewrite Hn | rewrite Hp]; reflexivity.
Defined.

(** ** C6: an empty term, and the cursor after a search *)

(** C6. For every state, performSearch with an empty or whitespace-only
    term gives no result and the cursor -1; and whatever the cursor was,
    after performSearch it is 0 when there are results and -1 when there
    are none. *)
Theorem C6_search_resets_cursor (st : State) :
  (whitespaceOnly (searchTerm (search st)) ->
     searchResults (search (performSearch st)) = [] /\
     currentSearchIndex (search (performSearch st)) = (-1)%Z) /\
  (searchResults (search (performSearch st)) <> [] ->
     currentSearchIndex (search (performSearch st)) = 0%Z) /\
  (searchResults (search (performSearch st)) = [] ->
     currentSearchIndex (search (performSearch st)) = (-1)%Z).
Proof.
  unfold performSearch. repeat split.
  - apply trim_nil in H. by rewrite H.
  - apply trim_nil in H. by rewrite H.
  - destruct (negb (truthy (trim (searchTerm (search st))))); simpl in *; [done|].
    by destruct (collectMatches _ _ _).
  - destruct (negb (truthy (trim (searchTerm (search st))))); simpl in *; [done|].
    intros H. by rewrite H.
Qed.

Lemma C6_search_resets_cursor_witness :
  searchResults (search (performSearch (searching (str "  ") 1))) = [] /\
  currentSearchIndex (search (performSearch (searching (str "  ") 1))) = (-1)%Z /\
  currentSearchIndex (search (performSearch (searching (str "bob") 1))) = 0%Z /\
  currentSearchIndex (search (performSearch (searching (str "carol") 1))) = (-1)%Z.
Proof.
  destruct (C6_search_resets_cursor (searching (str "  ") 1)) as ([H1 H2] & _).
  { repeat constructor. }
  destruct (C6_search_resets_cursor (searching (str "bob") 1)) as (_ & H3 & _).
  destruct (C6_search_resets_cursor (searching (str "carol") 1)) as (_ & _ & H4).
  exact (conj H1 (conj H2 (conj (H3 ltac:(discriminate)) (H4 eq_refl)))).
Defined.

(** ** C7: what a search matches *)

(** C7, as the specification states it, fails for a term of white space:
    a blank is a substring of the text "a b", and performSearch gives no
    result for the term " ". *)
Lemma C7_blank_term_matches_nothing :
  exists msg,
    allMessages (session (searching (str " ") (-1))) !! 1 = Some msg /\
    ciSubstring (str " ") (text msg) /\
    1 ∉ searchResults (search (performSearch (searching (str " ") (-1)))).
Proof.
  eexists. split; [reflexivity|]. split.
  - exists (str "a"), (str "b"). reflexivity.
  - vm_compute. by intros ?%elem_of_nil.
Qed.

(** C7, amended. For every state whose term is not empty or made of white
    space only, the results of performSearch are the indices of the
    messages of which the term is a substring of the text or of the
    sender, letter case ignored, in increasing order.  For every state,
    two terms that differ in letter case only, such as "Foo" and "foo",
    give the same results. *)
Theorem C7_search_matches_substring (st : State) :
  (~ whitespaceOnly (searchTerm (search st)) ->
     (forall i,
        i ∈ searchResults (search (performSearch st)) <->
        exists msg, allMessages (session st) !! i = Some msg /\
          (ciSubstring (searchTerm (search st)) (text msg) \/
           ciSubstring (searchTerm (search st)) (sender msg))) /\
     StronglySorted lt (searchResults (search (performSearch st)))) /\
  (forall t1 t2, toLowerCase t1 = toLowerCase t2 ->
     searchResults (search (performSearch (setSearchTerm t1 st))) =
     searchResults (search (performSearch (setSearchTerm t2 st)))) /\
  searchResults (search (performSearch (setSearchTerm (str "Foo") st))) =
  searchResults (search (performSearch (setSearchTerm (str "foo") st))).
Proof.
  assert (Hcase : forall t1 t2, toLowerCase t1 = toLowerCase t2 ->
     searchResults (search (performSearch (setSearchTerm t1 st))) =
     searchResults (search (performSearch (setSearchTerm t2 st)))).
  { intros t1 t2 H. unfold performSearch, setSearchTerm. simpl.
    rewrite (truthy_trim_lower t1 t2 H).
    destruct (negb (truthy (trim t2))); simpl; [done|].
    by apply collectMatches_lower. }
  split; [|split; [exact Hcase | by apply Hcase]].
  intros Hterm. rewrite <- trim_nil in Hterm. unfold performSearch.
  destruct (trim (searchTerm (search st))) eqn:Ht; [done|]. simpl. split.
  - intros i. rewrite collectMatches_spec. rewrite Nat.sub_0_r.
    split.
    + intros (msg & _ & Hl & Hm). exists msg. split; [done|].
      by apply messageMatches_spec.
    + intros (msg & Hl & Hm). exists msg. split; [lia|]. split; [done|].
      by apply messageMatches_spec.
  - generalize 0. induction (allMessages (session st)) as [|m msgs IH];
      intros index; simpl; [constructor|].
    destruct (messageMatches _ m); [|apply IH].
    constructor; [apply IH|].
    apply Forall_forall. intros i Hi.
    apply collectMatches_spec in Hi as (? & Hle & _). lia.
Qed.

Lemma C7_search_matches_substring_witness :
  0 ∈ searchResults (search (performSearch (searching (str "BOB") (-1)))) /\
  1 ∈ searchResults (search (performSearch (searching (str "BOB") (-1)))) /\
  searchResults (search (performSearch (setSearchTerm (str "ALICE") (searching [] 0)))) =
  searchResults (search (performSearch (setSearchTerm (str "alice") (searching [] 0)))).
Proof.
  destruct (C7_search_matches_substring (searching (str "BOB") (-1)))
    as (H & _).
  destruct H as [H _].
  { intros Hw. inversion Hw as [|? ? Hc _]. vm_compute in Hc. discriminate. }
  destruct (C7_search_matches_substring (searching [] 0)) as (_ & Hcase & _).
  refine (conj _ (conj _ (Hcase (str "ALICE") (str "alice") eq_refl))).
  - apply H. eexists. split; [reflexivity|]. left.
    exists (str "hello "), []. reflexivity.
  - apply H. eexists. split; [reflexivity|]. right.
    exists [], []. reflexivity.
Defined.

(** ** C8: put is idempotent *)

(** C8. saveChat puts the record under its [id], inserting it or taking
    the place of the record that had this id, and leaves the other records
    alone; putting the same record twice gives the store that putting it
    once gives, so getAll returns as many records after the second put as
    after the first; and a record put under an id that is taken replaces
    the old one instead of adding to it. *)
Theorem C8_put_idempotent (chat : SavedChat) (db : gmap jsstring SavedChat) :
  saveChat true chat db = Some (storePut chat db) /\
  storePut chat db !! id chat = Some chat /\
  (forall key, key <> id chat -> storePut chat db !! key = db !! key) /\
  (saveChat true chat db ≫= saveChat true chat) = saveChat true chat db /\
  length (storeGetAll (storePut chat (storePut chat db)))
    = length (storeGetAll (storePut chat db)) /\
  (forall chat', id chat' = id chat ->
     storePut chat' (storePut chat db) = storePut chat' db /\
     length (storeGetAll (storePut chat' (storePut chat db)))
       = length (storeGetAll (storePut chat db))) /\
  length (storeGetAll (storePut chat db))
    = match db !! id chat with
      | Some _ => length (storeGetAll db)
      | None => S (length (storeGetAll db))
      end.
Proof.
  assert (Hlen : forall m : gmap jsstring SavedChat,
            length (storeGetAll m) = base.size m).
  { intros m. unfold storeGetAll. by rewrite length_fmap, length_map_to_list. }
  unfold saveChat, storePut. repeat split.
  - apply lookup_insert_eq.
  - intros key Hne. by apply lookup_insert_ne.
  - simpl. by rewrite insert_insert_eq.
  - by rewrite insert_insert_eq.
  - rewrite H. apply insert_insert_eq.
  - rewrite H, insert_insert_eq. rewrite !Hlen.
    rewrite !map_size_insert. by rewrite <- H.
  - rewrite !Hlen, map_size_insert. by destruct (db !! id chat).
Qed.

Lemma C8_put_idempotent_witness :
  storePut (family_chat 3) (storePut (family_chat 2) ∅)
    = storePut (family_chat 3) ∅ /\
  length (storeGetAll (storePut (family_chat 3) (storePut (family_chat 2) ∅)))
    = length (storeGetAll (storePut (family_chat 2) ∅)).
Proof.
  destruct (C8_put_idempotent (family_chat 2) ∅) as (_ & _ & _ & _ & _ & H & _).
  exact (H (family_chat 3) eq_refl).
Defined.

(** ** C9: the size of a thumbnail *)



(** ** C2: a load that fails *)




(** ** C10: the cursor and the results *)


(** * Further properties of the code *)

(** ** More about the matcher *)

Lemma rep_consumed {R} (cls : ascii -> bool) (k : jsstring -> option R)
    q min s w r :
  rep cls k q min s = Some (w, r) -> Forall (fun c => cls c = true) w.
Proof.
  revert min w r. induction s as [|c s IH]; intros min w r H.
  - destruct q, min; simpl in H; try discriminate;
      destruct (k []); simpl in H; inversion H; constructor.
  - assert (Hmore : forall w r,
      (if cls c then (fun '(w, r) => (c :: w, r)) <$> rep cls k q (pred min) s
       else None) = Some (w, r) -> Forall (fun c => cls c = true) w).
    { intros w0 r0 H0. destruct (cls c) eqn:Hc; [|discriminate].
      destruct (rep cls k q (pred min) s) as [[w1 r1]|] eqn:Hr;
        simpl in H0; inversion H0; subst.
      constructor; [assumption | eapply IH, Hr]. }
    assert (Hstop : forall w r,
      match min with O => pair [] <$> k (c :: s) | S _ => None end = Some (w, r) ->
      Forall (fun c => cls c = true) w).
    { intros w0 r0 H0. destruct min; [|discriminate].
      destruct (k (c :: s)); simpl in H0; inversion H0. constructor. }
    destruct q; simpl in H.
    + destruct (if cls c then _ else None) as [[w1 r1]|] eqn:Hm.
      * inversion H; subst. eauto.
      * eauto.
    + destruct (match min with O => _ | S _ => None end) as [[w1 r1]|] eqn:Hs.
      * inversion H; subst. eauto.
      * eauto.
Qed.

(** A lazy quantifier stops at the first place where the continuation
    succeeds: it fails at every place strictly inside what was consumed. *)
Lemma rep_lazy_first {R} (cls : ascii -> bool) (k : jsstring -> option R)
    s w r :
  rep cls k Lazy 0 s = Some (w, r) ->
  forall w1 w2 s', w = w1 ++ w2 -> w2 <> [] -> s = w ++ s' ->
  k (w2 ++ s') = None.
Proof.
  revert w r. induction s as [|c s IH]; intros w r H w1 w2 s' Hw Hw2 Hs.
  - simpl in H. destruct (k []); simpl in H; [|discriminate].
    injection H as <- _. by destruct w1, w2.
  - simpl in H. destruct (k (c :: s)) as [r0|] eqn:Hk; simpl in H.
    + injection H as <- _. by destruct w1, w2.
    + destruct (cls c); [|discriminate].
      destruct (rep cls k Lazy 0 s) as [[w0 r0]|] eqn:Hr; simpl in H;
        [|discriminate].
      injection H as <- _. simpl in Hs. injection Hs as Hs.
      destruct w1 as [|c1 w1]; simpl in Hw.
      * subst w2. simpl. by rewrite <- Hs.
      * injection Hw as _ Hw. eapply IH; eauto.
Qed.

(** A lazy quantifier over characters at which the continuation fails goes
    on to the first place where it succeeds. *)
Lemma rep_lazy_exact {R} (cls : ascii -> bool) (k : jsstring -> option R)
    w s r :
  Forall (fun c => cls c = true) w ->
  (forall w1 w2, w = w1 ++ w2 -> w2 <> [] -> k (w2 ++ s) = None) ->
  k s = Some r ->
  rep cls k Lazy 0 (w ++ s) = Some (w, r).
Proof.
  induction w as [|c w IH]; intros Hcls Hfail Hk.
  - simpl. destruct s; simpl; by rewrite Hk.
  - inversion Hcls as [|? ? Hc Hcls']; subst. simpl.
    pose proof (Hfail [] (c :: w) eq_refl ltac:(discriminate)) as Hf.
    simpl in Hf. rewrite Hf. simpl.
    rewrite Hc. rewrite IH; [done | assumption | | assumption].
    intros w1 w2 -> Hw2. by apply (Hfail (c :: w1) w2).
Qed.

(** A greedy quantifier takes the longest run when the continuation
    succeeds after it. *)
Lemma rep_greedy_exact {R} (cls : ascii -> bool) (k : jsstring -> option R)
    w s r :
  Forall (fun c => cls c = true) w ->
  match s with c :: _ => cls c = false | [] => True end ->
  k s = Some r ->
  rep cls k Greedy 0 (w ++ s) = Some (w, r).
Proof.
  induction w as [|c w IH]; intros Hcls Hs Hk.
  - destruct s as [|c s]; simpl; [by rewrite Hk|].
    rewrite Hs. by rewrite Hk.
  - inversion Hcls as [|? ? Hc Hcls']; subst. simpl.
    rewrite Hc. by rewrite IH.
Qed.

Lemma matchItems_Lit ic c items s caps rest :
  matchItems ic (Lit c :: items) s = Some (caps, rest) ->
  exists x s', s = x :: s' /\ charMatches ic c x = true /\
               matchItems ic items s' = Some (caps, rest).
Proof.
  simpl. destruct s as [|x s']; [discriminate|].
  destruct (charMatches ic c x) eqn:Hc; [|discriminate]. eauto.
Qed.

Lemma matchItems_Rep ic q min cls cap items s caps rest :
  matchItems ic (Rep q min cls cap :: items) s = Some (caps, rest) ->
  exists w caps',
    rep cls (matchItems ic items) q min s = Some (w, (caps', rest)) /\
    caps = if cap then w :: caps' else caps'.
Proof.
  simpl. destruct (rep cls (matchItems ic items) q min s)
    as [[w [caps' rest']]|]; [|discriminate].
  intros [= <- <-]. eauto.
Qed.

Lemma trimStart_head s c r : trimStart s = c :: r -> isWhiteSpace c = false.
Proof.
  induction s as [|x s IH]; simpl; [discriminate|].
  destruct (isWhiteSpace x) eqn:Hx; [exact IH|]. by intros [= <- _].
Qed.

(** The last [\s*] of a pattern takes all the white space there is. *)
Lemma greedy_whitespace_last s :
  exists w, s = w ++ trimStart s /\
    rep isWhiteSpace (matchItems false []) Greedy 0 s
      = Some (w, ([], trimStart s)).
Proof.
  destruct (trimStart_suffix s) as (w & Hs & Hw). exists w. split; [exact Hs|].
  rewrite Hs at 1. apply rep_greedy_exact; [exact Hw | | reflexivity].
  destruct (trimStart s) as [|c r] eqn:Ht; [done|]. eapply trimStart_head, Ht.
Qed.

Lemma after_colon_succeeds t :
  matchItems false [Lit ":"%char; Rep Greedy 0 isWhiteSpace false]
             (":"%char :: t) <> None.
Proof.
  destruct (greedy_whitespace_last t) as (w & _ & Hg).
  cbn [matchItems]. unfold charMatches. rewrite Ascii.eqb_refl.
  cbn [matchItems] in Hg. by rewrite Hg.
Qed.

(** The groups of a header: three, without line terminators, and the third
    without a colon. *)
Lemma header_groups s caps rest :
  matchAlts false (alts messageRegex) s = Some (caps, rest) ->
  exists d t n,
    caps = [d; t; n] /\
    Forall (fun c => isDot c = true) d /\
    Forall (fun c => isDot c = true) t /\
    Forall (fun c => isDot c = true) n /\
    ":"%char ∉ n.
Proof.
  unfold messageRegex. cbn [alts matchAlts].
  destruct (matchItems false _ s) as [[caps0 rest0]|] eqn:H; [|discriminate].
  intros [= <- <-].
  apply matchItems_Lit in H as (? & s1 & -> & _ & H).
  apply matchItems_Rep in H as (d & caps1 & Hd & ->).
  pose proof (rep_consumed _ _ _ _ _ _ _ Hd) as Hdd.
  apply rep_inv in Hd as (s2 & -> & H & _).
  apply matchItems_Lit in H as (? & s3 & -> & _ & H).
  apply matchItems_Rep in H as (w1 & caps2 & Hw1 & ->).
  apply rep_inv in Hw1 as (s4 & -> & H & _).
  apply matchItems_Rep in H as (t & caps3 & Ht & ->).
  pose proof (rep_consumed _ _ _ _ _ _ _ Ht) as Htd.
  apply rep_inv in Ht as (s5 & -> & H & _).
  apply matchItems_Lit in H as (? & s6 & -> & _ & H).
  apply matchItems_Rep in H as (w2 & caps4 & Hw2 & ->).
  apply rep_inv in Hw2 as (s7 & -> & H & _).
  apply matchItems_Rep in H as (n & caps5 & Hn & ->).
  pose proof (rep_consumed _ _ _ _ _ _ _ Hn) as Hnd.
  pose proof (rep_lazy_first _ _ _ _ _ Hn) as Hfirst.
  apply rep_inv in Hn as (s8 & -> & H & _).
  apply matchItems_Lit in H as (? & s9 & -> & _ & H).
  apply matchItems_Rep in H as (w3 & caps6 & Hw3 & ->).
  apply rep_inv in Hw3 as (s10 & -> & H & _).
  simpl in H. injection H as <- <-.
  exists d, t, n. repeat split; try assumption.
  intros Hin. apply list_elem_of_split in Hin as (n1 & n2 & ->).
  specialize (Hfirst n1 (":"%char :: n2) _ eq_refl ltac:(discriminate) eq_refl).
  by apply after_colon_succeeds in Hfirst.
Qed.

(** ** What parseMessages puts into a message *)

Lemma trimEnd_prefix t : exists ws, t = trimEnd t ++ ws /\ whitespaceOnly ws.
Proof.
  unfold trimEnd. destruct (trimStart_suffix (rev t)) as (ws & Hs & Hws).
  exists (rev ws). split.
  - rewrite <- rev_app_distr, <- Hs. by rewrite rev_involutive.
  - by apply Forall_rev.
Qed.

Lemma trim_head u c r : trim u = c :: r -> isWhiteSpace c = false.
Proof.
  unfold trim. intros H.
  destruct (trimEnd_prefix (trimStart u)) as (ws & Ht & _).
  rewrite H in Ht. simpl in Ht. eapply trimStart_head, Ht.
Qed.

Lemma trim_last u r c : trim u = r ++ [c] -> isWhiteSpace c = false.
Proof.
  unfold trim, trimEnd. intros H. apply (f_equal (@rev ascii)) in H.
  rewrite rev_involutive, rev_app_distr in H. simpl in H.
  eapply trimStart_head, H.
Qed.

Lemma messagesOf_elem text0 amap ms msg :
  msg ∈ messagesOf text0 amap ms ->
  exists k m, ms !! k = Some m /\
    msg = assignBody amap (newMessage m) (bodyOf text0 m (drop (S k) ms)).
Proof.
  induction ms as [|m ms IH]; simpl; [by intros ?%elem_of_nil|].
  intros [->|Hin]%elem_of_cons.
  - exists 0, m. by rewrite drop_0.
  - destruct (IH Hin) as (k & m' & Hk & ->). by exists (S k), m'.
Qed.

Lemma headerScan_exec text0 i ms m :
  headerScan text0 i ms -> m ∈ ms ->
  exists j, exec messageRegex text0 j = Some m.
Proof.
  induction 1 as [i H | i m0 ms H Hscan IH]; [by intros ?%elem_of_nil|].
  intros [->|Hin]%elem_of_cons; eauto.
Qed.

Lemma exec_header_groups text0 j m :
  exec messageRegex text0 j = Some m ->
  exists d t n,
    m_groups m = [d; t; n] /\
    Forall (fun c => isDot c = true) d /\
    Forall (fun c => isDot c = true) t /\
    Forall (fun c => isDot c = true) n /\
    ":"%char ∉ n.
Proof.
  unfold exec. destruct (length text0 <? j); [discriminate|]. intros H.
  apply searchFrom_inv in H as (caps & rest & _ & Hm & -> & _).
  by apply header_groups in Hm.
Qed.

(** The text that the marker block assigns is a trimmed string, and the
    attachment it sets is one of the map. *)
Lemma assignBody_fields amap msg body :
  (exists u, text (assignBody amap msg (trim body)) = trim u) /\
  (forall a, attachment (assignBody amap msg body) = Some a ->
     attachment msg = Some a \/
     exists fileName, fileName <> [] /\ amap !! fileName = Some a).
Proof.
  unfold assignBody. split.
  - destruct (matchFirst attachmentRegex (trim body)) as [am|]; [|by eexists].
    destruct (group 1 am) as [f|]; [|by eexists].
    destruct (if truthy f then amap !! f else None); by eexists.
  - intros a.
    destruct (matchFirst attachmentRegex body) as [am|]; [|by intros; left].
    destruct (group 1 am) as [f|]; [|by intros; left].
    destruct f as [|c f]; simpl; [by intros; left|].
    destruct (amap !! _) as [a'|] eqn:Hf; simpl; [|by intros; left].
    intros [= <-]. right. by exists (c :: f).
Qed.

(** X1. For every transcript and attachment map, each message that
    parseMessages returns has a date, a time and a sender without line
    break, a sender without colon, and a text without white space at
    either end. *)
Theorem X1_message_fields
    (text0 : jsstring) (attachmentMap : gmap jsstring Attachment)
    (msgs : list Message) (msg : Message) :
  parseMessages text0 attachmentMap = Some msgs ->
  msg ∈ msgs ->
  Forall (fun c => isLineTerminator c = false) (date msg) /\
  Forall (fun c => isLineTerminator c = false) (time msg) /\
  Forall (fun c => isLineTerminator c = false) (sender msg) /\
  (":"%char ∉ sender msg) /\
  (forall c rest, text msg = c :: rest -> isWhiteSpace c = false) /\
  (forall init c, text msg = init ++ [c] -> isWhiteSpace c = false).
Proof.
  intros Hp Hin.
  destruct (parseMessages_total text0 attachmentMap) as (ms & Hscan & Hp').
  rewrite Hp in Hp'. injection Hp' as ->.
  apply messagesOf_elem in Hin as (k & m & Hk & ->).
  assert (Hm : m ∈ ms) by (apply list_elem_of_lookup; eauto).
  destruct (headerScan_exec _ _ _ _ Hscan Hm) as (j & Hj).
  destruct (exec_header_groups _ _ _ Hj) as (d & t & n & Hg & Hd & Ht & Hn & Hc).
  destruct (assignBody_header attachmentMap (newMessage m)
              (bodyOf text0 m (drop (S k) ms))) as (-> & -> & ->).
  unfold newMessage, groupStr, group. rewrite Hg. simpl.
  assert (Hdot : forall l, Forall (fun c => isDot c = true) l ->
                 Forall (fun c => isLineTerminator c = false) l).
  { intros l Hl. eapply Forall_impl; [exact Hl|]. intros c. unfold isDot.
    by destruct (isLineTerminator c). }
  destruct (assignBody_fields attachmentMap
              {| date := d; time := t; sender := n; text := [];
                 attachment := None |}
              (substring text0 (m_end m) (bodyEnd text0 (drop (S k) ms))))
    as [[u Hu] _].
  unfold bodyOf. rewrite Hu.
  repeat split; auto.
  - intros c rest. apply trim_head.
  - intros init c. apply trim_last.
Qed.

Lemma X1_message_fields_witness :
  (":"%char ∉ str "Bob") /\
  (forall c rest, str "Hi there" = c :: rest -> isWhiteSpace c = false).
Proof.
  destruct (X1_message_fields alice_hello_bob_hi ∅ _
              {| date := str "1/1/24"; time := str "10:01";
                 sender := str "Bob"; text := str "Hi there";
                 attachment := None |}
              parseMessages_two_messages)
    as (_ & _ & _ & Hc & Hh & _).
  - apply list_elem_of_further, list_elem_of_here.
  - exact (conj Hc Hh).
Defined.


(** X2. For every transcript and attachment map, a message that
    parseMessages returns with an attachment carries an attachment that
    the map holds under a non-empty file name; no attachment is made up. *)
Theorem X2_attachment_from_map
    (text0 : jsstring) (attachmentMap : gmap jsstring Attachment)
    (msgs : list Message) (msg : Message) (a : Attachment) :
  parseMessages text0 attachmentMap = Some msgs ->
  msg ∈ msgs ->
  attachment msg = Some a ->
  exists fileName, fileName <> [] /\ attachmentMap !! fileName = Some a.
Proof.
  intros Hp Hin Ha.
  destruct (parseMessages_total text0 attachmentMap) as (ms & Hscan & Hp').
  rewrite Hp in Hp'. injection Hp' as ->.
  apply messagesOf_elem in Hin as (k & m & Hk & ->).
  apply assignBody_fields in Ha as [Ha|Ha]; [discriminate | exact Ha].
Qed.

Lemma X2_attachment_from_map_witness :
  exists fileName,
    fileName <> [] /\
    ({[ str "photo.jpg" := photo_jpg ]} : gmap jsstring Attachment) !! fileName
      = Some photo_jpg.
Proof.
  destruct parseMessages_resolved_attachment as [Hp _].
  eapply (X2_attachment_from_map _ _ _ _ photo_jpg Hp).
  - apply list_elem_of_here.
  - reflexivity.
Defined.

(** ** Reading back a transcript in the export format *)

Lemma lit_fails c w s items :
  Forall (fun x => x <> c) w -> w <> [] ->
  matchItems false (Lit c :: items) (w ++ s) = None.
Proof.
  intros Hw Hne. destruct w as [|x w]; [done|]. simpl. unfold charMatches.
  inversion Hw as [|? ? Hx _]; subst.
  destruct (Ascii.eqb_spec c x) as [->|_]; [done | reflexivity].
Qed.

Lemma not_elem_Forall_ne (c : ascii) (w : jsstring) :
  c ∉ w -> forall w1 w2, w = w1 ++ w2 -> Forall (fun x => x <> c) w2.
Proof.
  intros Hc w1 w2 ->. apply Forall_forall. intros x Hx ->.
  apply Hc. apply elem_of_app. by right.
Qed.

Lemma noLeadingSpace_app s c rest :
  noLeadingSpace s -> isWhiteSpace c = false ->
  match s ++ c :: rest with x :: _ => isWhiteSpace x = false | [] => True end.
Proof. by destruct s. Qed.

(** A header line is matched from its first character, with the date, the
    time and the sender as groups, and the white space after the colon
    goes with it. *)
Lemma header_line_matches d t n rem :
  Forall (fun c => isDot c = true) d -> ","%char ∉ d ->
  Forall (fun c => isDot c = true) t -> "]"%char ∉ t -> noLeadingSpace t ->
  Forall (fun c => isDot c = true) n -> ":"%char ∉ n -> noLeadingSpace n ->
  matchAlts false (alts messageRegex)
    ("["%char :: d ++ ","%char :: " "%char :: t ++ "]"%char :: " "%char ::
       n ++ ":"%char :: rem)
  = Some ([d; t; n], trimStart rem).
Proof.
  intros Hd Hdc Ht Htc Hts Hn Hnc Hns.
  unfold messageRegex. cbn [alts matchAlts].
  set (k5 := [Lit ":"%char; Rep Greedy 0 isWhiteSpace false]).
  set (k4 := Rep Lazy 0 isDot true :: k5).
  set (k3 := Rep Greedy 0 isWhiteSpace false :: k4).
  set (k3b := Lit "]"%char :: k3).
  set (k2 := Rep Lazy 0 isDot true :: k3b).
  set (k1 := Rep Greedy 0 isWhiteSpace false :: k2).
  set (k1b := Lit ","%char :: k1).
  set (k0 := Rep Lazy 0 isDot true :: k1b).
  assert (H5 : matchItems false k5 (":"%char :: rem) = Some ([], trimStart rem)).
  { destruct (greedy_whitespace_last rem) as (w & _ & Hg).
    unfold k5. cbn [matchItems]. unfold charMatches. rewrite Ascii.eqb_refl.
    cbn [matchItems] in Hg. by rewrite Hg. }
  assert (H4 : matchItems false k4 (n ++ ":"%char :: rem)
               = Some ([n], trimStart rem)).
  { unfold k4. cbn [matchItems].
    rewrite (rep_lazy_exact isDot (matchItems false k5) n
               (":"%char :: rem) ([], trimStart rem) Hn);
      [reflexivity | | exact H5].
    intros w1 w2 Hw Hw2. apply lit_fails; [|exact Hw2].
    eapply not_elem_Forall_ne; eauto. }
  assert (H3 : matchItems false k3 (" "%char :: n ++ ":"%char :: rem)
               = Some ([n], trimStart rem)).
  { unfold k3. cbn [matchItems].
    pose proof (rep_greedy_exact isWhiteSpace (matchItems false k4) [" "%char]
                  (n ++ ":"%char :: rem) ([n], trimStart rem)) as Hg.
    cbn [app] in Hg. rewrite Hg;
      [reflexivity | by repeat constructor | | exact H4].
    by apply noLeadingSpace_app. }
  assert (H3b : matchItems false k3b
                  ("]"%char :: " "%char :: n ++ ":"%char :: rem)
                = Some ([n], trimStart rem)).
  { unfold k3b. cbn [matchItems]. unfold charMatches.
    rewrite Ascii.eqb_refl. exact H3. }
  assert (H2 : matchItems false k2
                 (t ++ "]"%char :: " "%char :: n ++ ":"%char :: rem)
               = Some ([t; n], trimStart rem)).
  { unfold k2. cbn [matchItems].
    rewrite (rep_lazy_exact isDot (matchItems false k3b) t
               ("]"%char :: " "%char :: n ++ ":"%char :: rem)
               ([n], trimStart rem) Ht);
      [reflexivity | | exact H3b].
    intros w1 w2 Hw Hw2. apply lit_fails; [|exact Hw2].
    eapply not_elem_Forall_ne; eauto. }
  assert (H1 : matchItems false k1
                 (" "%char :: t ++ "]"%char :: " "%char :: n ++ ":"%char :: rem)
               = Some ([t; n], trimStart rem)).
  { unfold k1. cbn [matchItems].
    pose proof (rep_greedy_exact isWhiteSpace (matchItems false k2) [" "%char]
                  (t ++ "]"%char :: " "%char :: n ++ ":"%char :: rem)
                  ([t; n], trimStart rem)) as Hg.
    cbn [app] in Hg. rewrite Hg;
      [reflexivity | by repeat constructor | | exact H2].
    by apply noLeadingSpace_app. }
  assert (H1b : matchItems false k1b
                  (","%char :: " "%char :: t ++ "]"%char :: " "%char ::
                     n ++ ":"%char :: rem)
                = Some ([t; n], trimStart rem)).
  { unfold k1b. cbn [matchItems]. unfold charMatches.
    rewrite Ascii.eqb_refl. exact H1. }
  assert (H0 : matchItems false k0
                 (d ++ ","%char :: " "%char :: t ++ "]"%char :: " "%char ::
                    n ++ ":"%char :: rem)
               = Some ([d; t; n], trimStart rem)).
  { unfold k0. cbn [matchItems].
    rewrite (rep_lazy_exact isDot (matchItems false k1b) d
               (","%char :: " "%char :: t ++ "]"%char :: " "%char ::
                  n ++ ":"%char :: rem)
               ([t; n], trimStart rem) Hd);
      [reflexivity | | exact H1b].
    intros w1 w2 Hw Hw2. apply lit_fails; [|exact Hw2].
    eapply not_elem_Forall_ne; eauto. }
  change (matchItems false (Lit "["%char :: k0)
            ("["%char :: d ++ ","%char :: " "%char :: t ++ "]"%char ::
               " "%char :: n ++ ":"%char :: rem))
    with (if charMatches false "["%char "["%char
          then matchItems false k0
                 (d ++ ","%char :: " "%char :: t ++ "]"%char :: " "%char ::
                    n ++ ":"%char :: rem)
          else None).
  unfold charMatches. rewrite Ascii.eqb_refl. by rewrite H0.
Qed.

Lemma header_needs_bracket c s :
  c <> "["%char -> matchAlts false (alts messageRegex) (c :: s) = None.
Proof.
  intros Hc. unfold messageRegex. cbn [alts matchAlts matchItems].
  unfold charMatches. by destruct (Ascii.eqb_spec "["%char c) as [<-|_].
Qed.

Lemma header_not_empty : matchAlts false (alts messageRegex) [] = None.
Proof. reflexivity. Qed.

Lemma searchFrom_hit re s idx caps rest :
  matchAlts (ignoreCase re) (alts re) s = Some (caps, rest) ->
  searchFrom re s idx =
  Some {| m_index := idx; m_whole := take (length s - length rest) s;
          m_groups := caps; m_end := idx + (length s - length rest) |}.
Proof. intros H. destruct s; simpl; by rewrite H. Qed.

Lemma searchFrom_miss re c s idx :
  matchAlts (ignoreCase re) (alts re) (c :: s) = None ->
  searchFrom re (c :: s) idx = searchFrom re s (S idx).
Proof. intros H. simpl. by rewrite H. Qed.

(** The scan for a header passes over text without opening bracket. *)
Lemma searchFrom_skip_gap gap s idx :
  "["%char ∉ gap ->
  searchFrom messageRegex (gap ++ s) idx
  = searchFrom messageRegex s (idx + length gap).
Proof.
  revert idx. induction gap as [|c gap IH]; intros idx Hgap; simpl app.
  - f_equal. simpl. lia.
  - apply not_elem_of_cons in Hgap as [Hc Hgap].
    rewrite searchFrom_miss by (apply header_needs_bracket; congruence).
    rewrite IH by assumption. f_equal. simpl. lia.
Qed.

Lemma exec_skip_gap pre gap s :
  "["%char ∉ gap ->
  exec messageRegex (pre ++ gap ++ s) (length pre)
  = exec messageRegex (pre ++ gap ++ s) (length pre + length gap).
Proof.
  intros Hgap. unfold exec. rewrite !length_app.
  destruct (Nat.ltb_spec (length pre + (length gap + length s)) (length pre));
    [lia|].
  destruct (Nat.ltb_spec (length pre + (length gap + length s))
              (length pre + length gap)); [lia|].
  rewrite drop_app_length.
  rewrite app_assoc, <- length_app, drop_app_length.
  rewrite length_app. by apply searchFrom_skip_gap.
Qed.

Lemma headerScan_lift text0 p j ms :
  headerScan (drop p text0) j ms -> p <= length text0 ->
  headerScan text0 (p + j) (shift p <$> ms).
Proof.
  induction 1 as [j H | j m ms H Hscan IH]; intros Hp.
  - constructor. rewrite exec_drop by assumption. by rewrite H.
  - rewrite fmap_cons. econstructor.
    + rewrite exec_drop by assumption. by rewrite H.
    + by apply IH.
Qed.

Lemma headerScan_same_exec text0 e p ms :
  exec messageRegex text0 e = exec messageRegex text0 p ->
  headerScan text0 p ms -> headerScan text0 e ms.
Proof.
  intros He H. inversion H; subst.
  - constructor. congruence.
  - econstructor; [|eassumption]. congruence.
Qed.

Lemma lowerChar_lt c : lowerChar c = "<"%char -> c = "<"%char.
Proof. destruct c as [[] [] [] [] [] [] [] []]; vm_compute; congruence. Qed.

(** Text without [<] holds no attachment marker. *)
Lemma no_marker s : "<"%char ∉ s -> matchFirst attachmentRegex s = None.
Proof.
  unfold matchFirst. generalize 0.
  induction s as [|c s IH]; intros idx Hs; [reflexivity|].
  apply not_elem_of_cons in Hs as [Hc Hs].
  rewrite searchFrom_miss; [by apply IH|].
  unfold attachmentRegex. cbn [alts ignoreCase matchAlts lits str
    list_ascii_of_string map app matchItems].
  unfold charMatches.
  destruct (Ascii.eqb_spec (lowerChar "<"%char) (lowerChar c)) as [Heq|_];
    [|reflexivity].
  symmetry in Heq. apply lowerChar_lt in Heq. congruence.
Qed.

Lemma trimStart_app_ws ws s : whitespaceOnly ws -> trimStart (ws ++ s) = trimStart s.
Proof.
  induction 1 as [|c ws Hc _ IH]; [reflexivity|]. simpl. by rewrite Hc.
Qed.

Lemma trimStart_id s : noLeadingSpace s -> trimStart s = s.
Proof. destruct s as [|c s]; simpl; [done|]. by intros ->. Qed.

Lemma trim_fixed s : trim s = s -> trimStart s = s /\ trimEnd s = s.
Proof.
  intros H.
  assert (Hs : trimStart s = s).
  { apply trimStart_id. destruct s as [|c r]; [done|].
    simpl. eapply trim_head, H. }
  split; [exact Hs|]. unfold trim in H. by rewrite Hs in H.
Qed.

Lemma trim_app_ws t ws :
  trim t = t -> t <> [] -> whitespaceOnly ws -> trim (t ++ ws) = t.
Proof.
  intros Ht Hne Hws. destruct (trim_fixed t Ht) as [Hs He].
  unfold trim. rewrite trimStart_id.
  - unfold trimEnd. rewrite rev_app_distr.
    rewrite trimStart_app_ws by (by apply Forall_rev). exact He.
  - destruct t as [|c t]; [done|]. simpl. simpl in Hs.
    destruct (isWhiteSpace c) eqn:Hc; [|reflexivity].
    exfalso. destruct (trimStart_suffix t) as (w & Hw & _).
    apply (f_equal (@length ascii)) in Hs. rewrite Hw in Hs at 2.
    simpl in Hs. rewrite length_app in Hs. lia.
Qed.

Lemma substring_take_drop text0 a b :
  a <= b -> b <= length text0 ->
  substring text0 a b = take (b - a) (drop a text0).
Proof.
  intros Hab Hb. unfold substring.
  replace (a `min` length text0) with a by lia.
  replace (b `min` length text0) with b by lia.
  replace (a `min` b) with a by lia.
  replace (a `max` b) with b by lia. done.
Qed.

Lemma message_eta msg :
  attachment msg = None ->
  {| date := date msg; time := time msg; sender := sender msg;
     text := text msg; attachment := None |} = msg.
Proof. destruct msg; simpl. by intros ->. Qed.

Lemma transcriptOf_head msg rest :
  exists s, transcriptOf (msg :: rest) = "["%char :: s.
Proof. simpl. unfold headerLine. simpl. eauto. Qed.

(** The transcript of plain messages is scanned into one header per
    message, and the messages of these headers are the messages written. *)
Lemma transcriptOf_scan amap msgs :
  Forall plainMessage msgs ->
  exists ms,
    headerScan (transcriptOf msgs) 0 ms /\
    messagesOf (transcriptOf msgs) amap ms = msgs /\
    match ms with m0 :: _ => m_index m0 = 0 | [] => msgs = [] end.
Proof.
  induction 1 as [|msg rest Hmsg Hrest (ms' & Hscan' & Hmsgs' & Hhead')].
  - exists []. split; [by constructor | done].
  - destruct Hmsg as [[Hd Hdc] (Ht & Htc & Hts) (Hn & Hnc & Hns)
                        (Htrim & Htb & Htl) Hatt].
    set (T' := transcriptOf rest) in *.
    set (tail := match rest with [] => [] | _ :: _ => lineFeed :: T' end).
    set (rem := " "%char :: text msg ++ tail).
    set (gap := match text msg with
                | [] => []
                | _ :: _ => text msg ++
                            match rest with [] => [] | _ :: _ => [lineFeed] end
                end).
    assert (HT : transcriptOf (msg :: rest) = headerLine msg ++ rem).
    { reflexivity. }
    assert (Hrem : trimStart rem = gap ++ T').
    { unfold rem, gap, tail. simpl.
      destruct (text msg) as [|c r] eqn:Etext.
      - simpl. destruct rest as [|m1 rest1]; [reflexivity|].
        destruct (transcriptOf_head m1 rest1) as [s Hs].
        unfold T'. rewrite Hs. reflexivity.
      - destruct (trim_fixed _ Htrim) as [Hs _]. simpl in Hs.
        destruct (isWhiteSpace c) eqn:Hc.
        + exfalso. destruct (trimStart_suffix r) as (w & Hw & _).
          apply (f_equal (@length ascii)) in Hs. rewrite Hw in Hs at 2.
          simpl in Hs. rewrite length_app in Hs. lia.
        + simpl. rewrite Hc. destruct rest; simpl.
          * unfold T'. simpl. by rewrite !app_nil_r.
          * by rewrite <- app_assoc. }
    assert (Hgap : "["%char ∉ gap).
    { unfold gap. destruct (text msg) as [|c r] eqn:Etext; [by apply not_elem_of_nil|].
      rewrite <- Etext in *. destruct rest; [by rewrite app_nil_r|].
      rewrite elem_of_app, list_elem_of_singleton.
      intros [?|?]; [done | discriminate]. }
    assert (Hbody : trim gap = text msg).
    { unfold gap. destruct (text msg) as [|c r] eqn:Etext; [reflexivity|].
      rewrite <- Etext in *. destruct rest; [by rewrite app_nil_r|].
      apply trim_app_ws; [done | by rewrite Etext | by repeat constructor]. }
    destruct (trimStart_suffix rem) as (w & Hw & _).
    set (pre := headerLine msg ++ w).
    assert (HT2 : transcriptOf (msg :: rest) = pre ++ gap ++ T').
    { rewrite HT. unfold pre. rewrite <- app_assoc. f_equal.
      rewrite <- Hrem. exact Hw. }
    assert (Hmatch : matchAlts false (alts messageRegex)
                       (transcriptOf (msg :: rest))
                     = Some ([date msg; time msg; sender msg], gap ++ T')).
    { assert (Hline : headerLine msg ++ rem =
                "["%char :: date msg ++ ","%char :: " "%char :: time msg ++
                "]"%char :: " "%char :: sender msg ++ ":"%char :: rem).
      { unfold headerLine, str. cbn [list_ascii_of_string].
        repeat (progress (rewrite <- ?app_assoc; cbn [app])). reflexivity. }
      rewrite HT, Hline, <- Hrem. by apply header_line_matches. }
    set (T := transcriptOf (msg :: rest)) in *.
    set (e := length pre).
    set (p := e + length gap).
    assert (He : length T - length (gap ++ T') = e).
    { rewrite HT2, !length_app. unfold e. lia. }
    assert (HlenT : length T = p + length T').
    { rewrite HT2, !length_app. unfold p, e. lia. }
    set (m0 := {| m_index := 0; m_whole := take e T;
                  m_groups := [date msg; time msg; sender msg];
                  m_end := e |}).
    assert (Hexec0 : exec messageRegex T 0 = Some m0).
    { unfold exec.
      replace (length T <? 0) with false by (symmetry; apply Nat.ltb_ge; lia).
      rewrite drop_0.
      rewrite (searchFrom_hit messageRegex T 0 _ _ Hmatch). by rewrite He. }
    assert (HdropT : drop p T = T').
    { rewrite HT2. unfold p, e. rewrite app_assoc, <- length_app.
      apply drop_app_length. }
    assert (Hscan : headerScan T e (shift p <$> ms')).
    { apply (headerScan_same_exec T e p).
      - rewrite HT2. unfold p, e. by apply exec_skip_gap.
      - replace p with (p + 0) at 1 by lia. apply headerScan_lift; [|lia].
        by rewrite HdropT. }
    exists (m0 :: (shift p <$> ms')). split; [|split; [|reflexivity]].
    + econstructor; [exact Hexec0 | exact Hscan].
    + cbn [messagesOf]. rewrite messagesOf_drop by lia. rewrite HdropT, Hmsgs'.
      f_equal.
      assert (Hend : bodyEnd T (shift p <$> ms') = p).
      { destruct ms' as [|m1 ms1].
        - change (length T = p). rewrite HlenT. unfold T'. rewrite Hhead'.
          cbn [transcriptOf length]. lia.
        - change (p + m_index m1 = p). rewrite Hhead'. lia. }
      unfold bodyOf. rewrite Hend. cbn [m_end m0].
      rewrite substring_take_drop by lia.
      assert (Hdrope : drop e T = gap ++ T').
      { rewrite HT2. unfold e. apply drop_app_length. }
      rewrite Hdrope. replace (p - e) with (length gap) by (unfold p; lia).
      rewrite take_app_length, Hbody.
      unfold assignBody. rewrite (no_marker _ Htl).
      exact (message_eta msg Hatt).
Qed.

(** X3. Writing plain messages in the export format and parsing the
    transcript gives the messages back: parseMessages reads
    [[DATE, TIME] SENDER: TEXT] lines, also with texts of several lines,
    as long as no field holds the character that ends it. *)
Theorem X3_parse_transcript_round_trip
    (msgs : list Message) (attachmentMap : gmap jsstring Attachment) :
  Forall plainMessage msgs ->
  parseMessages (transcriptOf msgs) attachmentMap = Some msgs.
Proof.
  intros H. destruct (transcriptOf_scan attachmentMap msgs H)
    as (ms & Hscan & Hmsgs & _).
  rewrite (parseMessages_scan _ attachmentMap _ Hscan). by rewrite Hmsgs.
Qed.

Lemma X3_parse_transcript_round_trip_witness :
  parseMessages (transcriptOf shopping_chat) ∅ = Some shopping_chat.
Proof.
  apply X3_parse_transcript_round_trip.
  repeat constructor;
    try (apply (bool_decide_unpack _); vm_compute; exact I).
Defined.

(** ** The handles of a load *)











Lemma extractEntries_cons env e entries amap urls br :
  extractEntries env (e :: entries) amap urls br =
  if bool_decide (entryName e = str "_chat.txt") || dir e
  then extractEntries env entries amap urls br
  else
    match asBlob e with
    | None => (None, urls, br)
    | Some blob =>
        let '(thumb, urls2, br2) :=
          thumbnailFor env (getAttachmentType (entryName e)) blob
            (urls ++ [nextUrl br]) (snd (createObjectURL blob br)) in
        extractEntries env entries
          (<[entryName e :=
               {| name := entryName e;
                  type := getAttachmentType (entryName e);
                  blobUrl := nextUrl br; size := sizeOfBlob blob;
                  thumbnailUrl := thumb |}]> amap)
          urls2 br2
    end.
Proof. reflexivity. Qed.


Lemma installSession_urls env file fileName chatId chatName parsed st :
  blobUrls (installSession env file fileName chatId chatName parsed st)
    = blobUrls st /\
  browser (installSession env file fileName chatId chatName parsed st)
    = browser st.
Proof.
  unfold installSession.
  destruct (negb (truthyOpt chatId)); [|done].
  destruct (saveChat _ _ _); [|done].
  unfold setChat, loadSavedChats. simpl. by destruct (getAllChats _ _).
Qed.




(** ** Object URLs that nobody lists *)

Lemma revokeAll_lookup urls br h :
  objectUrls (revokeAll urls br) !! h =
  if decide (h ∈ urls) then None else objectUrls br !! h.
Proof.
  unfold revokeAll. revert br. induction urls as [|u urls IH]; intros br.
  - destruct (decide (h ∈ [])) as [H|_]; [by apply elem_of_nil in H | done].
  - cbn [foldl]. rewrite IH. simpl.
    destruct (decide (h ∈ urls)) as [Hin|Hnot].
    + rewrite decide_True; [done | by right].
    + destruct (decide (h = u)) as [->|Hne].
      * rewrite decide_True by left. apply lookup_delete_eq.
      * rewrite decide_False by (intros [?|?]%elem_of_cons; done).
        by apply lookup_delete_ne.
Qed.

Lemma revokeAll_tracked urls br :
  allTracked urls br -> objectUrls (revokeAll urls br) = ∅.
Proof.
  intros H. apply map_eq. intros h. rewrite revokeAll_lookup, lookup_empty.
  case_decide as Hin; [done|].
  destruct (objectUrls br !! h) eqn:Hh; [|done].
  exfalso. apply Hin, H. by rewrite Hh.
Qed.

Lemma createObjectURL_tracked blob br urls :
  allTracked urls br ->
  allTracked (urls ++ [nextUrl br]) (snd (createObjectURL blob br)).
Proof.
  intros H h. simpl. rewrite lookup_insert. case_decide as Hh.
  - subst h. intros _. apply elem_of_app. right. by apply list_elem_of_singleton.
  - intros Hal. apply elem_of_app. left. by apply H.
Qed.

Lemma temporary_url_tracked blob br urls :
  allTracked urls br ->
  allTracked urls (revokeObjectURL (nextUrl br) (snd (createObjectURL blob br))).
Proof.
  intros H h. simpl. rewrite lookup_delete. case_decide as Hh.
  - by intros [? ?].
  - rewrite lookup_insert_ne by done. apply H.
Qed.

Lemma generateThumbnail_tracked env blob br urls :
  canvasContext env = true ->
  allTracked urls br ->
  match generateThumbnail env blob br with
  | (Some t, br') => allTracked (urls ++ [t]) br'
  | (None, br') => allTracked urls br'
  end.
Proof.
  intros Hctx H. unfold generateThumbnail. rewrite Hctx.
  change (createObjectURL blob br) with
    (nextUrl br, snd (createObjectURL blob br)). cbv iota beta.
  destruct (imageOfBlob blob) as [[w h]|]; [|by apply temporary_url_tracked].
  destruct (canvasSize (defaultThumbnailSize w h)) as [cw ch].
  destruct (canvasToBlob env); [|by apply temporary_url_tracked].
  exact (createObjectURL_tracked (CanvasBlob cw ch) _ urls
           (temporary_url_tracked blob br urls H)).
Qed.

Lemma generateVideoThumbnail_tracked env blob br urls :
  canvasContext env = true ->
  allTracked urls br ->
  match generateVideoThumbnail env blob br with
  | (Some t, br') => allTracked (urls ++ [t]) br'
  | (None, br') => allTracked urls br'
  end.
Proof.
  intros Hctx H. unfold generateVideoThumbnail. rewrite Hctx.
  change (createObjectURL blob br) with
    (nextUrl br, snd (createObjectURL blob br)). cbv iota beta.
  destruct (videoOfBlob blob); [|by apply temporary_url_tracked].
  destruct (canvasToBlob env); [|by apply temporary_url_tracked].
  exact (createObjectURL_tracked (CanvasBlob 200 200) _ urls
           (temporary_url_tracked blob br urls H)).
Qed.

Lemma thumbnailFor_tracked env ty blob urls br thumb urls2 br2 :
  canvasContext env = true ->
  allTracked urls br ->
  thumbnailFor env ty blob urls br = (thumb, urls2, br2) ->
  allTracked urls2 br2.
Proof.
  intros Hctx H. unfold thumbnailFor.
  pose proof (generateThumbnail_tracked env blob br urls Hctx H) as Hi.
  pose proof (generateVideoThumbnail_tracked env blob br urls Hctx H) as Hv.
  destruct ty.
  - destruct (generateThumbnail env blob br) as [[t|] br'];
      by intros [= <- <- <-].
  - destruct (generateVideoThumbnail env blob br) as [[t|] br'];
      by intros [= <- <- <-].
  - by intros [= <- <- <-].
  - destruct (generateThumbnail env blob br) as [[t|] br'];
      by intros [= <- <- <-].
  - by intros [= <- <- <-].
Qed.

Lemma extractEntries_tracked env entries :
  canvasContext env = true ->
  forall amap urls br o urls' br',
    allTracked urls br ->
    extractEntries env entries amap urls br = (o, urls', br') ->
    allTracked urls' br'.
Proof.
  intros Hctx.
  induction entries as [|e entries IH]; intros amap urls br o urls' br' Htr.
  - simpl. by intros [= <- <- <-].
  - rewrite extractEntries_cons.
    destruct (bool_decide (entryName e = str "_chat.txt") || dir e);
      [by apply IH|].
    destruct (asBlob e) as [blob|]; [|by intros [= <- <- <-]].
    destruct (thumbnailFor env (getAttachmentType (entryName e)) blob
                (urls ++ [nextUrl br]) (snd (createObjectURL blob br)))
      as [[thumb urls2] br2] eqn:Hth.
    apply thumbnailFor_tracked in Hth;
      [| exact Hctx | by apply createObjectURL_tracked].
    by apply IH.
Qed.

Lemma processZipFile_tracked env file fileName chatId chatName st :
  canvasContext env = true ->
  tracked st ->
  tracked (processZipFile env file fileName chatId chatName st).
Proof.
  intros Hctx Htr. unfold processZipFile, processZipFileOutcome.
  destruct (loadAsync file) as [files|]; [|exact Htr].
  destruct (chatFileOf files) as [chatFile|]; [|exact Htr].
  destruct (extractEntries _ _ _ _ _) as [[o urls] br] eqn:Hex.
  apply extractEntries_tracked in Hex; [| exact Hctx |].
  2:{ intros h Hh. simpl in Hh. rewrite (revokeAll_tracked _ _ Htr) in Hh.
      rewrite lookup_empty in Hh. by destruct Hh. }
  destruct o as [amap|]; [|exact Hex].
  destruct (asString chatFile) as [text0|]; [|exact Hex].
  destruct (parseMessages text0 amap) as [parsed|]; [|exact Hex].
  unfold tracked. cbn [snd].
  destruct (installSession_urls env file fileName chatId chatName parsed
              (withUrls (withSearch (withLoading st true) emptySearch) urls br))
    as [Hu Hb].
  simpl. rewrite Hu, Hb. exact Hex.
Qed.

(** X5. When every load finds a canvas context, no operation leaves an
    object URL alive that [blobUrls.current] does not list: what the loader
    creates it either lists or revokes, so that a later clean-up reaches
    everything. *)
Theorem X5_no_untracked_url (st : State) (op : Op) :
  tracked st -> canvasAvailable op -> tracked (step st op).
Proof.
  intros Htr Hop.
  destruct op as [t| | | |env file fileName chatId chatName|]; simpl.
  - exact Htr.
  - unfold performSearch.
    by destruct (negb (truthy (trim (searchTerm (search st))))).
  - unfold nextSearchResult.
    by destruct (length (searchResults (search st)) =? 0).
  - unfold prevSearchResult.
    by destruct (length (searchResults (search st)) =? 0).
  - by apply processZipFile_tracked.
  - intros h Hh. simpl in Hh. rewrite (revokeAll_tracked _ _ Htr) in Hh.
    rewrite lookup_empty in Hh. by destruct Hh.
Qed.

Lemma viewing_holiday_tracked : tracked viewing_holiday.
Proof.
  intros h [b Hb]. simpl in *.
  apply lookup_insert_Some in Hb as [[<- _]|[_ Hb]]; [set_solver|].
  apply lookup_singleton_Some in Hb as [<- _]. set_solver.
Qed.

Lemma X5_no_untracked_url_witness :
  tracked (step viewing_holiday
             (ProcessZipFile quiet_env holiday_zip
                (str "WhatsApp Chat - Alice.zip") None None)).
Proof.
  apply X5_no_untracked_url; [exact viewing_holiday_tracked | reflexivity].
Defined.

(** ** Going back to the start *)

(** X6. handleBackToHome revokes every handle that [blobUrls.current]
    lists and leaves the other object URLs as they are; it empties the
    list, the session and the search.  When no object URL was alive
    without being listed, none is alive afterwards.  Doing it twice is
    doing it once. *)
Theorem X6_back_to_home_releases (st : State) :
  (forall h, h ∈ blobUrls st ->
     objectUrls (browser (handleBackToHome st)) !! h = None) /\
  (forall h, h ∉ blobUrls st ->
     objectUrls (browser (handleBackToHome st)) !! h
       = objectUrls (browser st) !! h) /\
  blobUrls (handleBackToHome st) = [] /\
  session (handleBackToHome st) = emptySession /\
  search (handleBackToHome st) = emptySearch /\
  (tracked st -> objectUrls (browser (handleBackToHome st)) = ∅) /\
  handleBackToHome (handleBackToHome st) = handleBackToHome st.
Proof.
  split; [|split; [|split; [|split; [|split; [|split]]]]].
  - intros h Hh. simpl. rewrite revokeAll_lookup. by rewrite decide_True.
  - intros h Hh. simpl. rewrite revokeAll_lookup. by rewrite decide_False.
  - reflexivity.
  - reflexivity.
  - reflexivity.
  - intros Htr. simpl. by apply revokeAll_tracked.
  - reflexivity.
Qed.

Lemma X6_back_to_home_releases_witness :
  objectUrls (browser (handleBackToHome viewing_holiday)) = ∅.
Proof.
  destruct (X6_back_to_home_releases viewing_holiday)
    as (_ & _ & _ & _ & _ & H & _).
  exact (H viewing_holiday_tracked).
Defined.

(** ** The senders and the saved record of a load *)

Lemma unique_acc (l acc : list jsstring) :
  NoDup acc ->
  NoDup (foldl (fun acc x => if bool_decide (x ∈ acc) then acc else acc ++ [x])
               acc l) /\
  forall x,
    x ∈ foldl (fun acc x => if bool_decide (x ∈ acc) then acc else acc ++ [x])
              acc l
    <-> x ∈ acc \/ x ∈ l.
Proof.
  revert acc. induction l as [|y l IH]; intros acc Hacc; simpl.
  - split; [exact Hacc|]. intros x. split; [by left|].
    intros [?|?%elem_of_nil]; done.
  - case_bool_decide as Hy.
    + destruct (IH acc Hacc) as [Hnd Hin]. split; [exact Hnd|].
      intros x. rewrite Hin, elem_of_cons. split; [tauto|].
      intros [?|[->|?]]; auto.
    + assert (Hacc' : NoDup (acc ++ [y])).
      { apply NoDup_app. split; [exact Hacc|]. split.
        - intros x Hx ->%list_elem_of_singleton. contradiction.
        - apply NoDup_singleton. }
      destruct (IH _ Hacc') as [Hnd Hin]. split; [exact Hnd|].
      intros x. rewrite Hin, elem_of_app, list_elem_of_singleton, elem_of_cons.
      tauto.
Qed.

Lemma unique_spec (l : list jsstring) :
  NoDup (unique l) /\ forall x, x ∈ unique l <-> x ∈ l.
Proof.
  destruct (unique_acc l [] (NoDup_nil_2)) as [Hnd Hin]. split; [exact Hnd|].
  intros x. unfold unique. rewrite Hin. split; [|by right].
  intros [?%elem_of_nil|?]; done.
Qed.

Lemma installSession_session env file fileName chatId chatName parsed st :
  let s := session (installSession env file fileName chatId chatName parsed st) in
  let senders := unique ((fun m => trim (sender m)) <$> parsed) in
  allMessages s = parsed /\
  allSenders s = senders /\
  currentUser s =
    (if truthy (savedUsername st) && bool_decide (savedUsername st ∈ senders)
     then savedUsername st else []).
Proof.
  unfold installSession.
  destruct (negb (truthyOpt chatId)); [|done].
  destruct (saveChat _ _ _); [|done].
  unfold setChat. simpl. by rewrite loadSavedChats_session.
Qed.

(** X7. When processZipFile gets as far as setting the messages, the
    sender list holds the trimmed sender of every message exactly once,
    and the current user is the saved user name when that is one of the
    senders, and empty otherwise. *)
Theorem X7_senders_of_load
    (env : Env) (file : ZipFile) (fileName : jsstring)
    (chatId chatName : option jsstring) (st : State) :
  let r := processZipFileOutcome env file fileName chatId chatName st in
  let s := session (snd r) in
  fst r = MessagesSet ->
  NoDup (allSenders s) /\
  (forall x, x ∈ allSenders s <->
     exists msg, msg ∈ allMessages s /\ x = trim (sender msg)) /\
  (savedUsername st ∈ allSenders s -> currentUser s = savedUsername st) /\
  (savedUsername st ∉ allSenders s -> currentUser s = []).
Proof.
  unfold processZipFileOutcome.
  destruct (loadAsync file) as [files|]; [|discriminate].
  destruct (chatFileOf files) as [chatFile|]; [|discriminate].
  destruct (extractEntries _ _ _ _ _) as [[[amap|] urls] br]; [|discriminate].
  destruct (asString chatFile) as [text0|]; [|discriminate].
  destruct (parseMessages text0 amap) as [parsed|]; [|discriminate].
  intros _. cbn [fst snd].
  set (st2 := withUrls _ urls br).
  destruct (installSession_session env file fileName chatId chatName parsed st2)
    as (Hm & Hs & Hu).
  change (session (withLoading
            (installSession env file fileName chatId chatName parsed st2) false))
    with (session (installSession env file fileName chatId chatName parsed st2)).
  rewrite Hm, Hs, Hu.
  destruct (unique_spec ((fun m => trim (sender m)) <$> parsed)) as [Hnd Hin].
  change (savedUsername st2) with (savedUsername st).
  split; [exact Hnd|]. split; [|split].
  - intros x. rewrite Hin, list_elem_of_fmap. split.
    + intros (msg & -> & Hmsg). eauto.
    + intros (msg & Hmsg & ->). eauto.
  - intros Hsaved. rewrite bool_decide_eq_true_2 by exact Hsaved.
    destruct (savedUsername st) as [|c u] eqn:Eu; reflexivity.
  - intros Hsaved. rewrite bool_decide_eq_false_2 by exact Hsaved.
    by rewrite andb_false_r.
Qed.

Lemma X7_senders_of_load_witness :
  allSenders (session (processZipFile quiet_env holiday_zip
                         (str "WhatsApp Chat - Alice.zip") None None
                         viewing_holiday)) = [str "Alice"] /\
  currentUser (session (processZipFile quiet_env holiday_zip
                          (str "WhatsApp Chat - Alice.zip") None None
                          viewing_holiday)) = [].
Proof.
  destruct (X7_senders_of_load quiet_env holiday_zip
              (str "WhatsApp Chat - Alice.zip") None None viewing_holiday)
    as (_ & _ & _ & H); [vm_compute; reflexivity|].
  split; [vm_compute; reflexivity|].
  apply H. vm_compute. intros Hin. inversion Hin as [|? ? ? Hin']; subst.
  inversion Hin'.
Defined.




(** X9. Opening a saved chat whose id is not empty never writes to the
    store and leaves the list of saved chats as it is; when the messages
    are set, the session takes the id and the name of the record. *)
Theorem X9_reopen_keeps_store (env : Env) (chat : SavedChat) (st : State) :
  let r := processZipFileOutcome env (zipBlob chat) (chatName chat)
             (Some (id chat)) (Some (chatName chat)) st in
  truthy (id chat) = true ->
  loadSavedChat env chat st = snd r /\
  store (snd r) = store st /\
  savedChats (snd r) = savedChats st /\
  (fst r = MessagesSet ->
     currentChatId (session (snd r)) = id chat /\
     currentChatName (session (snd r)) = chatName chat).
Proof.
  intros r Hid. subst r. split; [reflexivity|].
  unfold processZipFileOutcome.
  destruct (loadAsync (zipBlob chat)) as [files|]; [|by repeat split].
  destruct (chatFileOf files) as [chatFile|]; [|by repeat split].
  destruct (extractEntries _ _ _ _ _) as [[[amap|] urls] br];
    [|by repeat split].
  destruct (asString chatFile) as [text0|]; [|by repeat split].
  destruct (parseMessages text0 amap) as [parsed|]; [|by repeat split].
  cbn [fst snd]. unfold installSession. cbn [truthyOpt]. rewrite Hid.
  cbn [negb]. unfold setChat. simpl.
  repeat split. by destruct (chatName chat).
Qed.

Lemma X9_reopen_keeps_store_witness :
  store (loadSavedChat quiet_env
           {| id := str "1700000000000"; chatName := str "Holiday";
              timestamp := 1700000000000; messageCount := 1;
              participants := [str "Alice"]; zipBlob := holiday_zip |}
           viewing_holiday)
  = store viewing_holiday.
Proof.
  destruct (X9_reopen_keeps_store quiet_env
              {| id := str "1700000000000"; chatName := str "Holiday";
                 timestamp := 1700000000000; messageCount := 1;
                 participants := [str "Alice"]; zipBlob := holiday_zip |}
              viewing_holiday eq_refl) as (Hl & Hs & _).
  etransitivity; [exact (f_equal store Hl) | exact Hs].
Defined.



(** ** Deleting a saved chat *)

(** X11. handleDeleteChat does nothing when the user does not confirm or
    when the store refuses the request.  Otherwise the record of this id
    is gone from the store, the other records stay, and an id that the
    store does not hold leaves it unchanged.  When the deleted chat is the
    one that is open, the session is emptied and every listed handle is
    revoked; when it is another one, the session, the search and the
    object URLs are untouched. *)
Theorem X11_delete_chat
    (deleteOk : bool) (listEnv : Env) (chatId : jsstring) (st : State) :
  handleDeleteChat false deleteOk listEnv chatId st = st /\
  handleDeleteChat true false listEnv chatId st = st /\
  let st' := handleDeleteChat true true listEnv chatId st in
  store st' !! chatId = None /\
  (forall key, key <> chatId -> store st' !! key = store st !! key) /\
  (store st !! chatId = None -> store st' = store st) /\
  (currentChatId (session st) = chatId ->
     session st' = emptySession /\ blobUrls st' = [] /\
     forall h, h ∈ blobUrls st -> objectUrls (browser st') !! h = None) /\
  (currentChatId (session st) <> chatId ->
     session st' = session st /\ search st' = search st /\
     blobUrls st' = blobUrls st /\ browser st' = browser st).
Proof.
  split; [reflexivity|]. split; [reflexivity|].
  unfold handleDeleteChat, deleteChat, storeDelete. cbv zeta.
  assert (Hstore : forall b : bool,
    store (if b
           then handleBackToHome
                  (loadSavedChats listEnv (withStore st (delete chatId (store st))))
           else loadSavedChats listEnv (withStore st (delete chatId (store st))))
    = delete chatId (store st)).
  { intros []; unfold loadSavedChats; by destruct (getAllChats _ _). }
  split; [by rewrite Hstore, lookup_delete_eq|].
  split; [intros key Hk; by rewrite Hstore, lookup_delete_ne|].
  split; [intros Hno; rewrite Hstore; by apply delete_id|].
  split.
  - intros Hcur. rewrite bool_decide_eq_true_2 by exact Hcur.
    split; [reflexivity|]. split; [reflexivity|].
    intros h Hh. simpl. rewrite revokeAll_lookup.
    unfold loadSavedChats. destruct (getAllChats _ _); simpl;
      by rewrite decide_True.
  - intros Hcur. rewrite bool_decide_eq_false_2 by exact Hcur.
    unfold loadSavedChats. by destruct (getAllChats _ _).
Qed.

Lemma X11_delete_chat_witness :
  session (handleDeleteChat true true quiet_env (str "1700000000000")
             viewing_holiday) = emptySession /\
  session (handleDeleteChat true true quiet_env (str "42") viewing_holiday)
    = session viewing_holiday.
Proof.
  destruct (X11_delete_chat true quiet_env (str "1700000000000") viewing_holiday)
    as (_ & _ & _ & _ & _ & Hcur & _).
  destruct (Hcur eq_refl) as [Hs _].
  destruct (X11_delete_chat true quiet_env (str "42") viewing_holiday)
    as (_ & _ & _ & _ & _ & _ & Hother).
  destruct Hother as [Ho _]; [discriminate|].
  exact (conj Hs Ho).
Defined.

(** ** The attachment map of an archive *)

Lemma extractEntries_map env entries :
  forall amap0 urls br amap urls' br',
    extractEntries env entries amap0 urls br = (Some amap, urls', br') ->
    (forall k a, amap !! k = Some a ->
       amap0 !! k = Some a \/
       (name a = k /\ type a = getAttachmentType k /\
        exists e blob, e ∈ entries /\ entryName e = k /\ dir e = false /\
          k <> str "_chat.txt" /\ asBlob e = Some blob /\
          size a = sizeOfBlob blob)) /\
    (forall k, is_Some (amap0 !! k) -> is_Some (amap !! k)) /\
    (forall e, e ∈ entries -> dir e = false ->
       entryName e <> str "_chat.txt" ->
       is_Some (asBlob e) /\ is_Some (amap !! entryName e)).
Proof.
  induction entries as [|e entries IH]; intros amap0 urls br amap urls' br'.
  - simpl. intros [= <- <- <-]. split; [by left|]. split; [done|].
    by intros e ?%elem_of_nil.
  - rewrite extractEntries_cons.
    destruct (bool_decide (entryName e = str "_chat.txt") || dir e) eqn:Hskip.
    + intros Hrec. destruct (IH _ _ _ _ _ _ Hrec) as (Hmap & Hdom & Hall).
      split; [|split; [exact Hdom|]].
      * intros k a Hk. destruct (Hmap k a Hk) as [?|(Hn & Ht & e' & blob & He' & Hrest)];
          [by left | right].
        split; [exact Hn|]. split; [exact Ht|].
        exists e', blob. split; [by right | exact Hrest].
      * intros e' [->|He']%elem_of_cons Hdir Hname; [|by apply Hall].
        apply orb_true_iff in Hskip as [Hc|Hd]; [|congruence].
        by apply bool_decide_eq_true in Hc.
    + apply orb_false_iff in Hskip as [Hc Hd].
      apply bool_decide_eq_false in Hc.
      destruct (asBlob e) as [blob|] eqn:Hblob; [|discriminate].
      destruct (thumbnailFor env (getAttachmentType (entryName e)) blob
                  (urls ++ [nextUrl br]) (snd (createObjectURL blob br)))
        as [[thumb urls2] br2].
      intros Hrec. destruct (IH _ _ _ _ _ _ Hrec) as (Hmap & Hdom & Hall).
      split; [|split].
      * intros k a Hk.
        destruct (Hmap k a Hk) as [Hins|(Hn & Ht & e' & blob' & He' & Hrest)].
        -- rewrite lookup_insert in Hins. case_decide as Hkey.
           ++ injection Hins as <-. subst k. right. simpl.
              split; [reflexivity|]. split; [reflexivity|].
              exists e, blob. split; [by left|]. by repeat split.
           ++ by left.
        -- right. split; [exact Hn|]. split; [exact Ht|].
           exists e', blob'. split; [by right | exact Hrest].
      * intros k Hk. apply Hdom. rewrite lookup_insert.
        case_decide; [eauto | exact Hk].
      * intros e' [->|He']%elem_of_cons Hdir Hname; [|by apply Hall].
        split; [by rewrite Hblob|]. apply Hdom. rewrite lookup_insert_eq. eauto.
Qed.

(** X12. When the loop over the entries of an archive ends without
    throwing, the attachment map has an attachment for every entry that is
    neither a folder nor [_chat.txt], and nothing else: each attachment is
    stored under its own name, with the type that getAttachmentType gives
    this name and the size of the blob of an entry of this name. *)
Theorem X12_attachment_map
    (env : Env) (entries : list ZipEntry) (br br' : Browser)
    (attachmentMap : gmap jsstring Attachment) (urls : list handle) :
  extractEntries env entries ∅ [] br = (Some attachmentMap, urls, br') ->
  (forall k a, attachmentMap !! k = Some a ->
     name a = k /\ type a = getAttachmentType k /\
     exists e blob, e ∈ entries /\ entryName e = k /\ dir e = false /\
       k <> str "_chat.txt" /\ asBlob e = Some blob /\
       size a = sizeOfBlob blob) /\
  (forall e, e ∈ entries -> dir e = false ->
     entryName e <> str "_chat.txt" ->
     is_Some (attachmentMap !! entryName e)).
Proof.
  intros H. apply extractEntries_map in H as (Hmap & _ & Hall). split.
  - intros k a Hk. destruct (Hmap k a Hk) as [Hempty|Hnew]; [|exact Hnew].
    by rewrite lookup_empty in Hempty.
  - intros e He Hdir Hname. by apply Hall.
Qed.

Lemma X12_attachment_map_witness :
  match extractEntries quiet_env (default [] (loadAsync holiday_zip)) ∅ []
          {| objectUrls := ∅; nextUrl := 0 |} with
  | (Some attachmentMap, _, _) => is_Some (attachmentMap !! str "photo.jpg")
  | (None, _, _) => False
  end.
Proof.
  destruct (extractEntries quiet_env (default [] (loadAsync holiday_zip)) ∅ []
              {| objectUrls := ∅; nextUrl := 0 |})
    as [[[attachmentMap|] urls] br'] eqn:H; [|vm_compute in H; discriminate].
  destruct (X12_attachment_map _ _ _ _ _ _ H) as [_ Hall].
  apply (Hall {| entryName := str "photo.jpg"; dir := false;
                 asBlob := Some (EntryBlob 2048 (Some (400, 300)%Z) false);
                 asString := None |}).
  - apply list_elem_of_further, list_elem_of_here.
  - reflexivity.
  - discriminate.
Defined.

(** ** The media panel *)

Lemma filter_sublist {A} (f : A -> bool) (l : list A) :
  List.filter f l `sublist_of` l.
Proof.
  induction l as [|x l IH]; simpl; [constructor|].
  destruct (f x); by constructor.
Qed.

Lemma filter_partition3 {A} (f g h : A -> bool) (l : list A) :
  (forall x, x ∈ l ->
     (f x = true /\ g x = false /\ h x = false) \/
     (f x = false /\ g x = true /\ h x = false) \/
     (f x = false /\ g x = false /\ h x = true)) ->
  length l = length (List.filter f l) + length (List.filter g l)
             + length (List.filter h l).
Proof.
  induction l as [|x l IH]; intros H; [reflexivity|]. simpl.
  rewrite IH by (intros y Hy; apply H; by right).
  destruct (H x ltac:(by left))
    as [(-> & -> & ->)|[(-> & -> & ->)|(-> & -> & ->)]]; simpl; lia.
Qed.

(** X13. The three categories of the media panel split the media: every
    message with an attachment is shown under exactly one of Images (image
    or sticker), Videos, and Documents (document or audio), so the three
    counts add up to the count of All; and each view lists messages of
    the session in their order. *)
Theorem X13_media_categories (st : State) :
  length (getFilteredMedia AllMedia st)
    = length (getFilteredMedia Images st) + length (getFilteredMedia Videos st)
      + length (getFilteredMedia Documents st) /\
  (forall msg, msg ∈ getFilteredMedia AllMedia st <->
     msg ∈ allMessages (session st) /\ attachment msg <> None) /\
  (forall msg, msg ∈ getFilteredMedia Images st ->
     (msg ∉ getFilteredMedia Videos st) /\
     (msg ∉ getFilteredMedia Documents st)) /\
  (forall msg, msg ∈ getFilteredMedia Videos st ->
     msg ∉ getFilteredMedia Documents st) /\
  (forall mediaFilter,
     getFilteredMedia mediaFilter st `sublist_of` allMessages (session st)).
Proof.
  unfold getFilteredMedia. cbv zeta.
  assert (Hin : forall (f : Message -> bool) (l : list Message) msg,
            msg ∈ List.filter f l <-> msg ∈ l /\ f msg = true).
  { intros f l msg. rewrite !list_elem_of_In, filter_In. reflexivity. }
  split; [|split; [|split; [|split]]].
  - apply filter_partition3. intros msg Hm. unfold getMediaMessages in Hm.
    apply Hin in Hm as [_ Hm]. unfold typeAmong.
    destruct (attachment msg) as [a|]; [|discriminate].
    destruct (type a); vm_compute; tauto.
  - intros msg. unfold getMediaMessages. rewrite Hin.
    destruct (attachment msg); split; intros [? ?]; split;
      congruence || done.
  - intros msg [_ Hi]%Hin. rewrite !Hin. unfold typeAmong in *.
    destruct (attachment msg) as [a|]; [|discriminate].
    destruct (type a); vm_compute in Hi; try discriminate;
      split; intros [_ H]; vm_compute in H; discriminate.
  - intros msg [_ Hi]%Hin. rewrite !Hin. unfold typeAmong in *.
    destruct (attachment msg) as [a|]; [|discriminate].
    destruct (type a); vm_compute in Hi; try discriminate;
      intros [_ H]; vm_compute in H; discriminate.
  - intros mediaFilter. unfold getMediaMessages.
    destruct mediaFilter;
      repeat (etransitivity; [apply filter_sublist|]); reflexivity.
Qed.

(** ** The highlighted row and the cursor *)



(** X15. On a state whose cursor is an index of the results,
    nextSearchResult and prevSearchResult undo each other. *)
Theorem X15_next_prev_inverse (st : State) :
  (0 <= currentSearchIndex (search st)
     < Z.of_nat (length (searchResults (search st))))%Z ->
  prevSearchResult (nextSearchResult st) = st /\
  nextSearchResult (prevSearchResult st) = st.
Proof.
  intros Hc.
  assert (Hlen : (length (searchResults (search st)) =? 0) = false)
    by (apply Nat.eqb_neq; lia).
  set (n := Z.of_nat (length (searchResults (search st)))) in *.
  unfold nextSearchResult, prevSearchResult. rewrite Hlen. simpl.
  rewrite Hlen. unfold withSearch. simpl. unfold jsrem. fold n.
  assert (H1 : (Z.rem (Z.rem (currentSearchIndex (search st) + 1) n - 1 + n) n
                = currentSearchIndex (search st))%Z).
  { rewrite (Z.rem_mod_nonneg (currentSearchIndex (search st) + 1)%Z) by lia.
    destruct (Z.eq_dec (currentSearchIndex (search st) + 1)%Z n) as [He|Hne].
    - rewrite He, Z_mod_same_full. rewrite Z.rem_mod_nonneg by lia.
      rewrite Z.mod_small by lia. lia.
    - rewrite (Z.mod_small (currentSearchIndex (search st) + 1)%Z) by lia.
      rewrite Z.rem_mod_nonneg by lia.
      replace (currentSearchIndex (search st) + 1 - 1 + n)%Z
        with (currentSearchIndex (search st) + 1 * n)%Z by lia.
      rewrite Z_mod_plus_full. apply Z.mod_small. lia. }
  assert (H2 : (Z.rem (Z.rem (currentSearchIndex (search st) - 1 + n) n + 1) n
                = currentSearchIndex (search st))%Z).
  { rewrite (Z.rem_mod_nonneg (currentSearchIndex (search st) - 1 + n)%Z) by lia.
    destruct (Z.eq_dec (currentSearchIndex (search st)) 0%Z) as [He|Hne].
    - rewrite He. replace (0 - 1 + n)%Z with (n - 1)%Z by lia.
      rewrite (Z.mod_small (n - 1)%Z) by lia.
      replace (n - 1 + 1)%Z with n by lia.
      rewrite Z.rem_mod_nonneg by lia. by rewrite Z_mod_same_full.
    - replace (currentSearchIndex (search st) - 1 + n)%Z
        with (currentSearchIndex (search st) - 1 + 1 * n)%Z by lia.
      rewrite Z_mod_plus_full.
      rewrite (Z.mod_small (currentSearchIndex (search st) - 1)%Z) by lia.
      rewrite Z.rem_mod_nonneg by lia.
      replace (currentSearchIndex (search st) - 1 + 1)%Z
        with (currentSearchIndex (search st)) by lia.
      apply Z.mod_small. lia. }
  rewrite H1, H2. destruct st as [? [? ? ?] ? ? ? ? ? ? ? ?]. done.
Qed.

Lemma X15_next_prev_inverse_witness :
  prevSearchResult (nextSearchResult (searching (str "bob") 1))
    = searching (str "bob") 1.
Proof.
  destruct (X15_next_prev_inverse (searching (str "bob") 1)) as [H _];
    [simpl; lia | exact H].
Defined.

(** ** The name of a chat *)

Lemma rep_greedy_min {R} (cls : ascii -> bool) (k : jsstring -> option R)
    w s r min :
  Forall (fun c => cls c = true) w ->
  min <= length w ->
  match s with c :: _ => cls c = false | [] => True end ->
  k s = Some r ->
  rep cls k Greedy min (w ++ s) = Some (w, r).
Proof.
  revert min. induction w as [|c w IH]; intros min Hcls Hmin Hs Hk.
  - simpl in Hmin. assert (min = 0) as -> by lia.
    destruct s as [|c s]; simpl; [by rewrite Hk|]. rewrite Hs. by rewrite Hk.
  - inversion Hcls as [|? ? Hc Hcls']; subst. simpl.
    rewrite Hc. rewrite IH; [done | assumption | simpl in Hmin; lia | assumption
                            | assumption].
Qed.

Lemma charMatches_refl c : charMatches true c c = true.
Proof. unfold charMatches. apply Ascii.eqb_refl. Qed.

Lemma matchItems_lits_self (p : jsstring) items s :
  matchItems true (map Lit p ++ items) (p ++ s) = matchItems true items s.
Proof.
  induction p as [|c p IH]; [reflexivity|].
  cbn [map app matchItems]. by rewrite charMatches_refl.
Qed.

Lemma matchItems_lits_inv (p : jsstring) items s r :
  matchItems true (map Lit p ++ items) s = Some r ->
  exists w s', s = w ++ s' /\ toLowerCase w = toLowerCase p /\
               matchItems true items s' = Some r.
Proof.
  destruct r as [caps rest].
  revert s. induction p as [|c p IH]; intros s H.
  - exists [], s. by repeat split.
  - cbn [map app] in H. apply matchItems_Lit in H as (x & s1 & -> & Hc & H).
    apply IH in H as (w & s' & -> & Hw & H).
    exists (x :: w), s'. split; [reflexivity|]. split; [|exact H].
    unfold charMatches in Hc. apply Ascii.eqb_eq in Hc. simpl. congruence.
Qed.

Lemma stripZip_ext s e :
  toLowerCase e = str ".zip" -> stripZip (s ++ e) = s.
Proof.
  intros He. assert (Hlen : length e = 4).
  { apply (f_equal (@length ascii)) in He. unfold toLowerCase in He.
    by rewrite length_map in He. }
  unfold stripZip. rewrite length_app, Hlen.
  replace (length s + 4 - 4) with (length s) by lia.
  rewrite drop_app_length, take_app_length.
  replace (4 <=? length s + 4) with true by (symmetry; apply Nat.leb_le; lia).
  by rewrite bool_decide_eq_true_2.
Qed.

(** A pattern that begins with ["WhatsApp "] matches only where these
    letters stand, in any letter case. *)
Lemma chat_pattern_needs_prefix (tail : string) items s m :
  matchFirst {| alts := [lits ("WhatsApp " ++ tail) ++ items];
                ignoreCase := true |} s = Some m ->
  ciSubstring (str "WhatsApp ") s.
Proof.
  unfold matchFirst. intros H.
  apply searchFrom_inv in H as (caps & rest & _ & Hm & _).
  cbn [alts ignoreCase matchAlts] in Hm.
  destruct (matchItems true _ _) as [r|] eqn:Hi; [|discriminate].
  unfold lits in Hi.
  change (str ("WhatsApp " ++ tail)) with (str "WhatsApp " ++ str tail) in Hi.
  rewrite map_app, <- app_assoc in Hi.
  apply matchItems_lits_inv in Hi as (w & s' & Hs & Hw & _).
  exists (toLowerCase (take (m_index m - 0) s)), (toLowerCase s').
  rewrite <- Hw. unfold toLowerCase. rewrite <- !map_app. f_equal.
  rewrite <- Hs. by rewrite take_drop.
Qed.

(** X16. extractChatName gives, for a file called
    ["WhatsApp Chat - NAME.zip"] with the extension in any letter case and
    a NAME of one line, NAME without the white space around it; and for a
    file name in which ["WhatsApp "] does not occur, in any letter case,
    the name without its [.zip] extension and without the white space
    around it. *)
Theorem X16_chat_name (fileName : jsstring) :
  (forall n e,
     fileName = str "WhatsApp Chat - " ++ n ++ e ->
     n <> [] -> Forall (fun c => isDot c = true) n ->
     toLowerCase e = str ".zip" ->
     extractChatName fileName = trim n) /\
  (~ ciSubstring (str "WhatsApp ") (stripZip fileName) ->
   extractChatName fileName = trim (stripZip fileName)).
Proof.
  split.
  - intros n e -> Hne Hdot He. unfold extractChatName.
    rewrite app_assoc, stripZip_ext by exact He.
    unfold chatNamePatterns. cbn [fmap list_fmap firstChatName].
    set (p1 := {| alts := [lits "WhatsApp Chat - " ++ [Rep Greedy 1 isDot true]];
                  ignoreCase := true |}).
    assert (Hm : matchAlts (ignoreCase p1) (alts p1) (str "WhatsApp Chat - " ++ n)
                 = Some ([n], [])).
    { unfold p1. cbn [alts ignoreCase matchAlts]. unfold lits.
      rewrite matchItems_lits_self. cbn [matchItems].
      assert (Hlen : 1 <= length n) by (destruct n; [done | simpl; lia]).
      pose proof (rep_greedy_min isDot (matchItems true []) n [] ([], []) 1
                    Hdot Hlen I eq_refl) as Hg.
      rewrite app_nil_r in Hg. cbn [matchItems] in Hg. by rewrite Hg. }
    unfold matchFirst. rewrite (searchFrom_hit p1 _ 0 _ _ Hm).
    unfold groupStr, group. simpl. by destruct n.
  - intros Hno. unfold extractChatName.
    assert (Hnone : firstChatName chatNamePatterns (stripZip fileName) = None).
    { unfold chatNamePatterns. cbn [fmap list_fmap].
      set (p1 := {| alts := [lits "WhatsApp Chat - " ++ [Rep Greedy 1 isDot true]];
                    ignoreCase := true |}).
      set (p2 := {| alts := [lits "WhatsApp Chat with " ++ [Rep Greedy 1 isDot true]];
                    ignoreCase := true |}).
      set (p3 := {| alts := [lits "WhatsApp " ++ [Rep Greedy 1 isDot true]];
                    ignoreCase := true |}).
      cbn [firstChatName].
      destruct (matchFirst p1 (stripZip fileName)) as [m|] eqn:H1.
      { exfalso. apply Hno.
        exact (chat_pattern_needs_prefix "Chat - " _ _ _ H1). }
      destruct (matchFirst p2 (stripZip fileName)) as [m|] eqn:H2.
      { exfalso. apply Hno.
        exact (chat_pattern_needs_prefix "Chat with " _ _ _ H2). }
      destruct (matchFirst p3 (stripZip fileName)) as [m|] eqn:H3.
      { exfalso. apply Hno.
        exact (chat_pattern_needs_prefix "" _ _ _ H3). }
      reflexivity. }
    by rewrite Hnone.
Qed.

Lemma X16_chat_name_witness :
  extractChatName (str "WhatsApp Chat - Book club .ZIP") = str "Book club" /\
  extractChatName (str " export-2024.zip") = str "export-2024".
Proof.
  destruct (X16_chat_name (str "WhatsApp Chat - Book club .ZIP")) as [Ha _].
  destruct (X16_chat_name (str " export-2024.zip")) as [_ Hb].
  split.
  - etransitivity;
      [apply (Ha (str "Book club ") (str ".ZIP"));
         [reflexivity | discriminate | by repeat constructor | reflexivity]
      | reflexivity].
  - etransitivity; [apply Hb | reflexivity].
    apply includes_false. vm_compute. reflexivity.
Defined.

(** ** Thumbnails for any bounds *)



(** ** The sender menu and the sent mark *)

Lemma trim_idem s : trim (trim s) = trim s.
Proof.
  assert (Hstart : trimStart (trim s) = trim s).
  { apply trimStart_id. destruct (trim s) as [|c r] eqn:E; [done|].
    simpl. eapply trim_head, E. }
  unfold trim at 1. rewrite Hstart. unfold trimEnd at 1.
  rewrite trimStart_id; [apply rev_involutive|].
  destruct (rev (trim s)) as [|c r] eqn:E; [done|]. simpl.
  apply (f_equal (@rev ascii)) in E. rewrite rev_involutive in E.
  simpl in E. eapply trim_last, E.
Qed.

(** X18. After a load, whichever entry of the sender menu is chosen as the
    current user, a message is marked as sent exactly when its sender is
    that entry and the entry is not empty; the menu lists trimmed names, so
    a message whose sender has white space around it is never marked as
    sent. *)
Theorem X18_sent_mark
    (env : Env) (file : ZipFile) (fileName : jsstring)
    (chatId chatName : option jsstring) (st : State)
    (user : jsstring) (msg : Message) :
  let r := processZipFileOutcome env file fileName chatId chatName st in
  let chosen := setCurrentUser user (snd r) in
  fst r = MessagesSet ->
  user ∈ allSenders (session (snd r)) ->
  (isSent chosen msg = true <-> user <> [] /\ sender msg = user) /\
  (trim (sender msg) <> sender msg -> isSent chosen msg = false).
Proof.
  unfold processZipFileOutcome.
  destruct (loadAsync file) as [files|]; [|discriminate].
  destruct (chatFileOf files) as [chatFile|]; [|discriminate].
  destruct (extractEntries _ _ _ _ _) as [[[amap|] urls] br]; [|discriminate].
  destruct (asString chatFile) as [text0|]; [|discriminate].
  destruct (parseMessages text0 amap) as [parsed|]; [|discriminate].
  intros _. cbn [fst snd].
  set (st2 := withUrls _ urls br).
  destruct (installSession_session env file fileName chatId chatName parsed st2)
    as (_ & Hs & _).
  change (session (withLoading
            (installSession env file fileName chatId chatName parsed st2) false))
    with (session (installSession env file fileName chatId chatName parsed st2)).
  rewrite Hs. intros Huser.
  apply (proj2 (unique_spec _)), list_elem_of_fmap in Huser.
  destruct Huser as (m & -> & _).
  assert (Hsent : isSent (setCurrentUser (trim (sender m))
                    (withLoading
                       (installSession env file fileName chatId chatName
                          parsed st2) false)) msg = true <->
                  trim (sender m) <> [] /\ sender msg = trim (sender m)).
  { unfold isSent, setCurrentUser. cbn [session withSession currentUser].
    rewrite andb_true_iff, bool_decide_eq_true.
    destruct (trim (sender m)) as [|c u]; simpl; split;
      intros [H1 H2]; split; done. }
  split; [exact Hsent|].
  intros Hne. apply not_true_is_false. intros Htrue.
  apply Hsent in Htrue as [_ Heq]. apply Hne.
  rewrite Heq. apply trim_idem.
Qed.

Lemma X18_sent_mark_witness :
  isSent (setCurrentUser (str "Alice")
            (processZipFile quiet_env holiday_zip
               (str "WhatsApp Chat - Alice.zip") None None viewing_holiday))
         {| date := str "1/2/24"; time := str "10:00"; sender := str "Alice ";
            text := str "hi"; attachment := None |} = false.
Proof.
  refine (proj2 (X18_sent_mark quiet_env holiday_zip
                   (str "WhatsApp Chat - Alice.zip") None None viewing_holiday
                   (str "Alice") _ _ _) _).
  - vm_compute; reflexivity.
  - vm_compute. apply list_elem_of_here.
  - vm_compute. discriminate.
Defined.
